(** * The guest roster of the birthday-party site

    The repository ships two variants of one page script.  Both keep the
    roster in [appState.guests] and expose the same handlers ([addGuest],
    [updateGuestStatus], [removeGuest]); they differ in where the roster is
    persisted:

    - the local-storage variant mutates [appState.guests] itself and saves
      it with [localStorage.setItem];
    - the remote variant sends every change to a Flask backend with [fetch]
      and then replaces [appState.guests] by what [GET /guests] answers.

    The handlers are embedded as programs of a small state monad over the
    part of the page they read and write.  What the script takes from its
    surroundings is a parameter of the handler that takes it: the clock
    reading of [Date.now()], the visitor's answer to [confirm], and what a
    [fetch] comes to.  The elements the handlers look up are taken to be on
    the page, and ids are integers.  Navigation and the photo banner never
    write the roster; they are embedded on their own, over the part of the
    page they touch ([Navigation], [PhotoBanner]).  The markup that
    [renderGuestList] writes is left out. *)

From Stdlib Require Import ZArith Ascii String Lia.
From stdpp Require Import base list strings.

(** ** JavaScript strings

    A string is the sequence of its code units.  The model covers code
    units below 256 (the Latin-1 block), one [ascii] each; [String.length]
    is then JavaScript's [length].  On that range [trim] and [toLowerCase]
    are the functions below. *)

Module Js.

(** WhiteSpace and LineTerminator code points of ECMAScript that lie
    below 256: TAB, LF, VT, FF, CR, SP and NBSP. *)
Definition isWhiteSpace (c : ascii) : bool :=
  let n := nat_of_ascii c in
  (n =? 9) || (n =? 10) || (n =? 11) || (n =? 12) || (n =? 13)
  || (n =? 32) || (n =? 160).

Fixpoint trimStart (s : string) : string :=
  match s with
  | EmptyString => EmptyString
  | String c s' => if isWhiteSpace c then trimStart s' else s
  end.

Fixpoint trimEnd (s : string) : string :=
  match s with
  | EmptyString => EmptyString
  | String c s' =>
      match trimEnd s' with
      | EmptyString => if isWhiteSpace c then EmptyString else String c EmptyString
      | t => String c t
      end
  end.

(** [String.prototype.trim]. *)
Definition trim (s : string) : string := trimEnd (trimStart s).

(** Unicode simple lower-casing below 256: A-Z, and the capitals
    U+00C0-U+00DE except the multiplication sign U+00D7, move up by 32. *)
Definition lowerChar (c : ascii) : ascii :=
  let n := nat_of_ascii c in
  if ((65 <=? n) && (n <=? 90))
     || ((192 <=? n) && (n <=? 222) && negb (n =? 215))
  then ascii_of_nat (n + 32)
  else c.

(** [String.prototype.toLowerCase]. *)
Fixpoint toLowerCase (s : string) : string :=
  match s with
  | EmptyString => EmptyString
  | String c s' => String (lowerChar c) (toLowerCase s')
  end.

(** What a handler call evaluates to when it runs to its end.  Every
    handler of the page ends by falling off its body or by a bare
    [return;].  For an [async] handler of the remote variant the call
    itself evaluates to a promise; what the handlers below leave is the
    value that promise is fulfilled with. *)
Inductive Value (A : Type) : Type :=
| undefined : Value A
| object : A → Value A.
Global Arguments undefined {A}.
Global Arguments object {A} _.

End Js.

(** ** Guests *)

Module Guest.
(** [{ id: ..., name: ..., status: ... }] *)
Record t : Type := mk { id : Z; name : string; status : string }.

Global Instance eq_dec : EqDecision t.
Proof. solve_decision. Defined.

(** [guest.status = newStatus] *)
Definition set_status (newStatus : string) (g : t) : t :=
  {| id := id g; name := name g; status := newStatus |}.
End Guest.

(** ** Utility functions (the same in both variants) *)

(** The [map] of [escapeHtml]: ampersand, less-than, greater-than, double
    quote (code 34) and apostrophe become entities; any other character is
    not matched by the regular expression and stays. *)
Definition escapeChar (c : ascii) : string :=
  if decide (c = "&"%char) then "&amp;"
  else if decide (c = "<"%char) then "&lt;"
  else if decide (c = ">"%char) then "&gt;"
  else if decide (c = "034"%char) then "&quot;"
  else if decide (c = "'"%char) then "&#039;"
  else String c EmptyString.

(** [text.replace(regexp, m => map[m])] with the global flag: every
    occurrence is replaced. *)
Fixpoint escapeHtml (text : string) : string :=
  match text with
  | EmptyString => EmptyString
  | String c rest => escapeChar c +:+ escapeHtml rest
  end.

(** ** The page *)

(** A toast of [showNotification(message, type)]. *)
Record Notification : Type := toast { message : string; type : string }.

Global Instance Notification_eq_dec : EqDecision Notification.
Proof. solve_decision. Defined.

(** What the handlers read and write:
    - [guests]: [appState.guests], in array order;
    - [inputValue]: the [value] of the [#guestInput] field;
    - [confirmedCount]: the text of the [#confirmedCount] element;
    - [storage]: the guests saved under [birthdayAppState] in local
      storage, if any (the local-storage variant only);
    - [notifications]: the toasts shown so far, oldest first. *)
Record World : Type := mkWorld {
  guests : list Guest.t;
  inputValue : string;
  confirmedCount : nat;
  storage : option (list Guest.t);
  notifications : list Notification
}.

(** A handler runs on the page and leaves a value. *)
Definition Handler (A : Type) : Type := World → A * World.

Global Instance Handler_ret : MRet Handler := λ A a w, (a, w).
Global Instance Handler_bind : MBind Handler :=
  λ A B f m w, let (a, w') := m w in f a w'.

Definition exec {A} (m : Handler A) (w : World) : World := (m w).2.
Definition result {A} (m : Handler A) (w : World) : A := (m w).1.

Definition getGuests : Handler (list Guest.t) := λ w, (guests w, w).
Definition setGuests (gs : list Guest.t) : Handler unit := λ w,
  (tt, mkWorld gs (inputValue w) (confirmedCount w) (storage w) (notifications w)).
Definition getInput : Handler string := λ w, (inputValue w, w).
Definition setInput (v : string) : Handler unit := λ w,
  (tt, mkWorld (guests w) v (confirmedCount w) (storage w) (notifications w)).
Definition setConfirmedCount (n : nat) : Handler unit := λ w,
  (tt, mkWorld (guests w) (inputValue w) n (storage w) (notifications w)).
Definition setStorage (gs : list Guest.t) : Handler unit := λ w,
  (tt, mkWorld (guests w) (inputValue w) (confirmedCount w) (Some gs) (notifications w)).

(** [showNotification(message, type)] appends one toast to the page. *)
Definition showNotification (message type : string) : Handler unit := λ w,
  (tt, mkWorld (guests w) (inputValue w) (confirmedCount w) (storage w)
         (notifications w ++ [toast message type])).

(** [appState.guests.filter(g => g.status === s).length] *)
Definition countStatus (s : string) (gs : list Guest.t) : nat :=
  length (filter (λ g, Guest.status g = s) gs).

(** [updateConfirmedCount()] *)
Definition updateConfirmedCount : Handler unit :=
  gs ← getGuests;
  setConfirmedCount (countStatus "confirmed" gs).

(** ** The local-storage variant *)

Module LocalVariant.

(** [appState] as the script declares it; with nothing saved yet,
    [loadFromLocalStorage] leaves it as it is. *)
Definition initial : World :=
  mkWorld [Guest.mk 1 "Sample Guest" "pending"] "" 0 None [].

(** [saveToLocalStorage()]: the roster is serialised under
    [birthdayAppState].  [setItem] is taken to succeed; when it throws
    (the quota is exceeded) the script catches, saves nothing and shows the
    toast 'Error saving data', which has no step here.  Statements below
    that conclude about the roster only do not depend on it. *)
Definition saveToLocalStorage : Handler unit :=
  gs ← getGuests;
  setStorage gs.

(** [addGuest()], run when [Date.now()] reads [now].  The name comes from
    the input field.  [renderGuestList()], which the script calls between
    clearing the field and [updateConfirmedCount()], has no step here: it
    writes the list element only.  It runs through when every row has the
    select of its template ([rowsRender] below); with a stored name whose
    markup swallows the select it throws, after the push and before the
    counter, the save and the toast. *)
Definition addGuest (now : Z) : Handler (Js.Value Guest.t) :=
  value ← getInput;
  let name := Js.trim value in
  if decide (name = "") then
    showNotification "Please enter a name" "error";;
    mret Js.undefined
  else if decide (50 < String.length name) then
    showNotification "Name is too long (max 50 characters)" "error";;
    mret Js.undefined
  else
    gs ← getGuests;
    if decide (Exists (λ guest,
                 Js.toLowerCase (Guest.name guest) = Js.toLowerCase name) gs)
    then
      showNotification "This guest has already been added" "warning";;
      setInput "";;
      mret Js.undefined
    else
      let newGuest := Guest.mk now (escapeHtml name) "pending" in
      setGuests (gs ++ [newGuest]);;
      setInput "";;
      updateConfirmedCount;;
      saveToLocalStorage;;
      showNotification ("✓ " +:+ name +:+ " added successfully") "success";;
      mret Js.undefined.

(** [updateGuestStatus(id, newStatus)]: [find] yields the first record
    with this id, and the assignment changes that record where it sits in
    the array. *)
Definition updateGuestStatus (id : Z) (newStatus : string)
  : Handler (Js.Value Guest.t) :=
  gs ← getGuests;
  match list_find (λ g, Guest.id g = id) gs with
  | Some (i, guest) =>
      setGuests (<[i := Guest.set_status newStatus guest]> gs);;
      updateConfirmedCount;;
      saveToLocalStorage;;
      mret Js.undefined
  | None => mret Js.undefined
  end.

(** [removeGuest(id)].  As in [addGuest], [renderGuestList()] (called
    right after the filter) has no step here. *)
Definition removeGuest (id : Z) : Handler (Js.Value Guest.t) :=
  gs ← getGuests;
  match list_find (λ g, Guest.id g = id) gs with
  | Some (_, guest) =>
      let guestName := Guest.name guest in
      setGuests (filter (λ g, Guest.id g ≠ id) gs);;
      updateConfirmedCount;;
      saveToLocalStorage;;
      showNotification ("✓ " +:+ guestName +:+ " removed") "success";;
      mret Js.undefined
  | None => mret Js.undefined
  end.

(** The object of [getGuestStats()]. *)
Record Stats : Type := mkStats {
  total : nat; confirmed : nat; pending : nat; declined : nat
}.

Definition getGuestStats (w : World) : Stats :=
  {| total := length (guests w);
     confirmed := countStatus "confirmed" (guests w);
     pending := countStatus "pending" (guests w);
     declined := countStatus "declined" (guests w) |}.

(** What [JSON.parse] makes of an imported file, as far as
    [importGuestList] looks at it: an object whose [guests] is an array, a
    bare array, or anything else (a parse error included). *)
Inductive Imported : Type :=
| WithGuests (gs : list Guest.t)
| BareArray (gs : list Guest.t)
| Unusable.

(** The [onload] callback of [importGuestList(file)].  The callback
    assigns the roster and then calls [renderGuestList()] inside its
    [try]; [rendered] tells whether that call ran through.  When it threw,
    the [catch] shows the error toast and the counter and the save are
    skipped, with the roster already replaced. *)
Definition importGuestList (imported : Imported) (rendered : bool)
  : Handler (Js.Value Guest.t) :=
  match imported with
  | WithGuests gs | BareArray gs =>
      setGuests gs;;
      if rendered then
        updateConfirmedCount;;
        saveToLocalStorage;;
        showNotification "Guest list imported successfully" "success";;
        mret Js.undefined
      else
        showNotification "Error reading file" "error";;
        mret Js.undefined
  | Unusable =>
      showNotification "Error reading file" "error";;
      mret Js.undefined
  end.

(** One use of the roster: the visitor types [input] and adds it while
    the clock reads [now], picks a status in a row's select, or presses a
    row's remove button. *)
Inductive Op : Type :=
| Add (input : string) (now : Z)
| UpdateStatus (id : Z) (newStatus : string)
| Remove (id : Z).

Definition step (w : World) (op : Op) : World :=
  match op with
  | Add input now => exec (setInput input;; addGuest now) w
  | UpdateStatus id newStatus => exec (updateGuestStatus id newStatus) w
  | Remove id => exec (removeGuest id) w
  end.

(** The page after a sequence of uses, first use first. *)
Definition run (ops : list Op) (w : World) : World := foldl step w ops.

End LocalVariant.

(** ** The remote variant *)

Module RemoteVariant.

(** [appState] as the script declares it. *)
Definition initial : World := mkWorld [] "" 0 None [].

(** What [await fetch(...)] followed by [await response.json()] comes to:
    either of the two rejects and control passes to the [catch] block, or
    there is a response with its [ok] flag and its decoded body. *)
Inductive Fetched (A : Type) : Type :=
| Throws : Fetched A
| Responds (ok : bool) (data : A) : Fetched A.
Global Arguments Throws {A}.
Global Arguments Responds {A} ok data.

(** The body answered to a POST, PUT or DELETE, as far as the script reads
    it: [data.message]. *)
Record Reply : Type := mkReply { reply_message : option string }.

(** The body answered to [GET /guests]: [data.success] and [data.guests]. *)
Record Listing : Type := mkListing { success : bool; listed : list Guest.t }.

(** [data.message || fallback]: an absent or empty message is falsy. *)
Definition messageOr (data : Reply) (fallback : string) : string :=
  match reply_message data with
  | Some m => if decide (m = "") then fallback else m
  | None => fallback
  end.

(** [loadGuests()], given what [GET /guests] comes to.
    [renderGuestList()], called inside the [try] between the assignment
    and [updateConfirmedCount()], has no step here; the remote script
    never escapes names, so with a listed name whose markup swallows a
    row's select it throws there, the counter is skipped and the [catch]
    shows 'Error loading guests'.  The roster is assigned before that. *)
Definition loadGuests (get : Fetched Listing) : Handler (Js.Value Guest.t) :=
  match get with
  | Responds _ data =>
      if success data then
        setGuests (listed data);;
        updateConfirmedCount;;
        mret Js.undefined
      else mret Js.undefined
  | Throws =>
      showNotification "Error loading guests" "error";;
      mret Js.undefined
  end.

(** [addGuest()], given what the POST and the reload after it come to. *)
Definition addGuest (post : Fetched Reply) (get : Fetched Listing)
  : Handler (Js.Value Guest.t) :=
  value ← getInput;
  let name := Js.trim value in
  if decide (name = "") then
    showNotification "Please enter a name" "error";;
    mret Js.undefined
  else if decide (50 < String.length name) then
    showNotification "Name is too long (max 50 characters)" "error";;
    mret Js.undefined
  else
    match post with
    | Responds ok data =>
        if negb ok then
          showNotification (messageOr data "Error adding guest") "error";;
          mret Js.undefined
        else
          showNotification ("✓ " +:+ name +:+ " added successfully") "success";;
          setInput "";;
          loadGuests get;;
          mret Js.undefined
    | Throws =>
        showNotification "Failed to add guest" "error";;
        mret Js.undefined
    end.

(** [updateGuestStatus(id, newStatus)], given what the PUT and the reload
    come to. *)
Definition updateGuestStatus (id : Z) (newStatus : string)
    (put : Fetched Reply) (get : Fetched Listing)
  : Handler (Js.Value Guest.t) :=
  match put with
  | Responds ok data =>
      if negb ok then
        showNotification (messageOr data "Error updating status") "error";;
        mret Js.undefined
      else
        loadGuests get;;
        mret Js.undefined
  | Throws =>
      showNotification "Failed to update status" "error";;
      mret Js.undefined
  end.

(** [removeGuest(id)], given the visitor's answer to the [confirm] dialog
    and what the DELETE and the reload come to. *)
Definition removeGuest (id : Z) (confirmed : bool)
    (del : Fetched Reply) (get : Fetched Listing)
  : Handler (Js.Value Guest.t) :=
  if negb confirmed then mret Js.undefined
  else
    match del with
    | Responds ok data =>
        if negb ok then
          showNotification (messageOr data "Error removing guest") "error";;
          mret Js.undefined
        else
          showNotification "✓ Guest removed" "success";;
          loadGuests get;;
          mret Js.undefined
    | Throws =>
        showNotification "Failed to remove guest" "error";;
        mret Js.undefined
    end.

(** One operation on the roster together with what the server did. *)
Inductive Call : Type :=
| Add (post : Fetched Reply) (get : Fetched Listing)
| UpdateStatus (id : Z) (newStatus : string)
    (put : Fetched Reply) (get : Fetched Listing)
| Remove (id : Z) (confirmed : bool)
    (del : Fetched Reply) (get : Fetched Listing)
| Load (get : Fetched Listing).

Definition perform (c : Call) : Handler (Js.Value Guest.t) :=
  match c with
  | Add post get => addGuest post get
  | UpdateStatus id newStatus put get => updateGuestStatus id newStatus put get
  | Remove id confirmed del get => removeGuest id confirmed del get
  | Load get => loadGuests get
  end.

(** The reload fails: the fetch throws, or the body does not report
    success. *)
Definition reloadFails (get : Fetched Listing) : Prop :=
  match get with
  | Throws => True
  | Responds _ data => success data = false
  end.

(** A persistence call of the operation fails: its own fetch throws, or
    the reload fails. *)
Definition ioError (c : Call) : Prop :=
  match c with
  | Add req get | UpdateStatus _ _ req get | Remove _ _ req get =>
      req = Throws ∨ reloadFails get
  | Load get => reloadFails get
  end.

End RemoteVariant.

(** ** The vocabulary of the specification

    The handlers throw nothing: an error reaches the visitor as a toast
    and the handler returns.  [ValidationError] and [DuplicateError] are
    the toasts of the two guards of [addGuest]. *)

Definition ValidationError (n : Notification) : Prop :=
  n = toast "Please enter a name" "error"
  ∨ n = toast "Name is too long (max 50 characters)" "error".

Definition DuplicateError (n : Notification) : Prop :=
  n = toast "This guest has already been added" "warning".

(** A call that took the page from [w] to [w'] failed with an error of
    kind [E]: it showed one toast of that kind and left the roster alone. *)
Definition failsWith (E : Notification → Prop) (w w' : World) : Prop :=
  guests w' = guests w
  ∧ ∃ n, E n ∧ notifications w' = notifications w ++ [n].

(** The name [addGuest] works with: the input field's text, trimmed. *)
Definition enteredName (w : World) : string := Js.trim (inputValue w).

(** The comparison of the duplicate guard of the local-storage variant. *)
Definition sameNameIgnoringCase (name : string) (guest : Guest.t) : Prop :=
  Js.toLowerCase (Guest.name guest) = Js.toLowerCase name.

Global Instance sameNameIgnoringCase_dec name guest :
  Decision (sameNameIgnoringCase name guest).
Proof. unfold sameNameIgnoringCase. apply _. Defined.

(** The three values of the status enumeration; they are the options of
    the select that [createGuestElement] renders in each row. *)
Definition statuses : list string := ["pending"; "confirmed"; "declined"].

Definition ids (w : World) : list Z := Guest.id <$> guests w.

(** Every status change of the sequence passes one of the three values. *)
Definition offersStatus (op : LocalVariant.Op) : Prop :=
  match op with
  | LocalVariant.UpdateStatus _ newStatus => newStatus ∈ statuses
  | _ => True
  end.

Global Instance offersStatus_dec op : Decision (offersStatus op).
Proof. destruct op; simpl; apply _. Defined.

(** Every [Add] of the sequence happens at a clock reading that is not
    the id of a guest on the roster at that moment. *)
Fixpoint clockFresh (ops : list LocalVariant.Op) (w : World) : Prop :=
  match ops with
  | [] => True
  | op :: rest =>
      match op with
      | LocalVariant.Add _ now => now ∉ ids w
      | _ => True
      end
      ∧ clockFresh rest (LocalVariant.step w op)
  end.

Global Instance clockFresh_dec ops : ∀ w, Decision (clockFresh ops w).
Proof. induction ops as [|[] ops IH]; intros w; simpl; apply _. Defined.

(** A stored name as [addGuest] builds one: the escaped form of a trimmed
    name of 1 to 50 characters. *)
Definition escapedValidName (stored : string) : Prop :=
  ∃ raw, Js.trim raw = raw
         ∧ 1 ≤ String.length raw ≤ 50
         ∧ stored = escapeHtml raw.

(** ** Sample pages *)

(** The visitor has typed [input] into the field. *)
Definition typing (input : string) (w : World) : World :=
  exec (setInput input) w.

(** A clock reading, in milliseconds since the epoch. *)
Definition noon : Z := 1700000000000.

(** Ann and Bob were added within the same millisecond. *)
Definition sameMillisecond : World :=
  LocalVariant.run
    [LocalVariant.Add "Ann" noon; LocalVariant.Add "Bob" noon]
    LocalVariant.initial.

(** Ann was added and confirmed; Bob was added a minute later. *)
Definition rsvps : World :=
  LocalVariant.run
    [LocalVariant.Add "Ann" noon;
     LocalVariant.UpdateStatus noon "confirmed";
     LocalVariant.Add "Bob" (noon + 60000)]
    LocalVariant.initial.

(** A name of exactly 50 characters with an ampersand in it. *)
Definition longName : string :=
  "Alexander & Alexandra Montgomery-Fitzgerald-Smythe".

(** The remote page after a reload that listed one confirmed guest. *)
Definition serverRoster : World :=
  exec (RemoteVariant.loadGuests
          (RemoteVariant.Responds true
             (RemoteVariant.mkListing true [Guest.mk 7 "Zoe" "confirmed"])))
    RemoteVariant.initial.

(** ** Running handlers *)

Ltac run_handler :=
  cbv [exec result mbind mret Handler_bind Handler_ret getInput getGuests
       setGuests setInput showNotification updateConfirmedCount
       LocalVariant.saveToLocalStorage setConfirmedCount setStorage];
  cbn [fst snd guests inputValue confirmedCount storage notifications].

(** The page with one more toast. *)
Definition toasted (n : Notification) (w : World) : World :=
  mkWorld (guests w) (inputValue w) (confirmedCount w) (storage w)
    (notifications w ++ [n]).

(** The page after a change of the roster in the local-storage variant:
    the counter and the saved copy follow the new roster. *)
Definition synced (gs : list Guest.t) (input : string) (w : World) : World :=
  mkWorld gs input (countStatus "confirmed" gs) (Some gs) (notifications w).

(** ** Characters of a string *)

(** [c] is one of the characters of [s]. *)
Fixpoint occurs (c : ascii) (s : string) : Prop :=
  match s with
  | EmptyString => False
  | String d rest => c = d ∨ occurs c rest
  end.

Global Instance occurs_dec c s : Decision (occurs c s).
Proof. induction s; simpl; apply _. Defined.

(** The characters that open or close a tag or an attribute value:
    less-than, greater-than, double quote and apostrophe. *)
Definition markup : list ascii := ["<"; ">"; "034"; "'"]%char.

(** The character class of the regular expression of [escapeHtml]. *)
Definition escapable : list ascii := "&"%char :: markup.

(** ** Rows and duplicates *)

(** No stored name of the roster holds a markup character.
    [createGuestElement] writes the stored name into the markup of the row
    as it is, between the tags of a span; without such a character in it
    (and with an integer id) the row is the one of the template, its select
    is found, and [renderGuestList()], which has no step in the handlers
    above, runs through. *)
Definition rowsRender (w : World) : Prop :=
  Forall (λ g, Forall (λ c, ¬ occurs c (Guest.name g)) markup) (guests w).

Global Instance rowsRender_dec w : Decision (rowsRender w).
Proof. unfold rowsRender. apply _. Defined.

(** The guest is on the roster under the typed name, case ignored.  Names
    are stored escaped, so that is a stored name equal to the escaped form
    of the typed name; the guard of [addGuest] compares the stored name
    with the typed name itself, and a stored name equal to that counts as
    well. *)
Definition duplicateOf (name : string) (guest : Guest.t) : Prop :=
  sameNameIgnoringCase (escapeHtml name) guest
  ∨ sameNameIgnoringCase name guest.

Global Instance duplicateOf_dec name guest : Decision (duplicateOf name guest).
Proof. unfold duplicateOf. apply _. Defined.

(** O'Brien was added, and the visitor has typed the name again. *)
Definition obrienAgain : World :=
  typing "O'Brien"
    (LocalVariant.run [LocalVariant.Add "O'Brien" noon] LocalVariant.initial).

(** Tom & Jerry was added, and the visitor has typed the escaped form of
    that name. *)
Definition tomAndJerry : World :=
  typing "Tom &amp; Jerry"
    (LocalVariant.run [LocalVariant.Add "Tom & Jerry" noon]
       LocalVariant.initial).

(** ** Storage and page load (local-storage variant) *)

Module LocalSession.

(** [loadFromLocalStorage()]: with an item saved, [parsed.guests ||
    appState.guests] is the saved array (an array is truthy, empty or
    not), and the counter follows; with none, nothing happens.
    [renderGuestList()], called inside the [try] before
    [updateConfirmedCount()], has no step here: the saved rows are taken
    to render (an empty roster always does). *)
Definition loadFromLocalStorage : Handler (Js.Value Guest.t) :=
  λ w,
    match storage w with
    | Some saved =>
        (setGuests saved;;
         updateConfirmedCount;;
         mret Js.undefined) w
    | None => (Js.undefined, w)
    end.

(** [initializeApp()], as far as the roster goes. *)
Definition initializeApp : Handler (Js.Value Guest.t) :=
  updateConfirmedCount;;
  mret Js.undefined.

(** The [DOMContentLoaded] listener. *)
Definition onDOMContentLoaded : Handler (Js.Value Guest.t) :=
  initializeApp;;
  loadFromLocalStorage;;
  mret Js.undefined.

(** The [beforeunload] listener, and the [visibilitychange] listener when
    the page gets hidden. *)
Definition onBeforeUnload : Handler (Js.Value Guest.t) :=
  LocalVariant.saveToLocalStorage;;
  mret Js.undefined.

(** The page the browser builds when the script is loaded while local
    storage holds [saved]: [appState] is the declared one, the field is
    empty and no toast is shown. *)
Definition freshPage (saved : option (list Guest.t)) : World :=
  mkWorld (guests LocalVariant.initial) "" 0 saved [].

(** The visitor loads the page again: local storage is what it was, and
    the listener of [DOMContentLoaded] runs on the fresh page. *)
Definition reopen (w : World) : World :=
  exec onDOMContentLoaded (freshPage (storage w)).

(** [clearLocalStorage()], given the visitor's answer to [confirm]. *)
Definition clearLocalStorage (confirmed : bool) : Handler (Js.Value Guest.t) :=
  if confirmed then
    (λ w, (tt, mkWorld (guests w) (inputValue w) (confirmedCount w) None
                 (notifications w)));;
    setGuests [];;
    updateConfirmedCount;;
    showNotification "All data cleared" "success";;
    mret Js.undefined
  else mret Js.undefined.

End LocalSession.

(** ** A session of the remote variant *)

Module RemoteSession.

(** The visitor types into the field, or a handler runs and the server
    answers. *)
Inductive Event : Type :=
| Typed (input : string)
| Called (c : RemoteVariant.Call).

Definition step (w : World) (e : Event) : World :=
  match e with
  | Typed input => typing input w
  | Called c => exec (RemoteVariant.perform c) w
  end.

Definition run (events : list Event) (w : World) : World :=
  foldl step w events.

(** What the [GET /guests] of a call comes to, if the call gets that far. *)
Definition reloadOf (c : RemoteVariant.Call)
  : RemoteVariant.Fetched RemoteVariant.Listing :=
  match c with
  | RemoteVariant.Add _ get
  | RemoteVariant.UpdateStatus _ _ _ get
  | RemoteVariant.Remove _ _ _ get
  | RemoteVariant.Load get => get
  end.

End RemoteSession.

(** ** Navigation (the same in both variants) *)

Module Navigation.

(** An element of the page as [navigateTo] sees it: its id, whether it
    carries the class [section] and whether it carries the class
    [hidden]. *)
Record Element : Type := mkElement {
  elementId : string;
  isSection : bool;
  hidden : bool
}.

(** A button of class [nav-btn]: whether it carries the class [active],
    and the width of its [nav-underline] child when it has one. *)
Record NavBtn : Type := mkNavBtn {
  active : bool;
  underline : option string
}.

(** [appState.currentSection], the elements of the document in document
    order, and the buttons [querySelectorAll('.nav-btn')] finds. *)
Record Site : Type := mkSite {
  currentSection : string;
  elements : list Element;
  navBtns : list NavBtn
}.

Definition validSections : list string := ["intro"; "location"; "rsvp"].
Definition sectionNames : list string := ["intro"; "location"; "rsvp"].

(** [updateNavigation(activeSection)]: past the third button
    [sectionNames[index]] is [undefined], which equals no section. *)
Definition updateNavigation (activeSection : string) (btns : list NavBtn)
  : list NavBtn :=
  imap (λ index btn,
          if decide (sectionNames !! index = Some activeSection)
          then mkNavBtn true ((λ _, "100%") <$> underline btn)
          else mkNavBtn false ((λ _, "0") <$> underline btn))
       btns.

(** [s.classList.add('hidden')] on every element of class [section]. *)
Definition hideSections (els : list Element) : list Element :=
  (λ e, if isSection e then mkElement (elementId e) true true else e) <$> els.

(** [navigateTo(section)]; [getElementById] finds the first element with
    the id. *)
Definition navigateTo (section : string) (site : Site) : Site :=
  if decide (section ∈ validSections) then
    let els := hideSections (elements site) in
    match list_find (λ e, elementId e = section) els with
    | Some (i, targetSection) =>
        mkSite section
          (<[i := mkElement (elementId targetSection)
                    (isSection targetSection) false]> els)
          (updateNavigation section (navBtns site))
    | None => mkSite (currentSection site) els (navBtns site)
    end
  else site.

(** The visitor goes from place to place. *)
Definition visit (sections : list string) (site : Site) : Site :=
  foldl (λ s section, navigateTo section s) site sections.

(** The sections that show: elements of class [section] without the class
    [hidden]. *)
Definition shown (site : Site) : list Element :=
  filter (λ e, isSection e = true ∧ hidden e = false) (elements site).

(** A page with the three sections and three buttons. *)
Definition samplePage : Site :=
  mkSite "intro"
    [mkElement "header" false false;
     mkElement "intro" true false;
     mkElement "location" true true;
     mkElement "rsvp" true true]
    [mkNavBtn true (Some "100%"); mkNavBtn false (Some "0");
     mkNavBtn false None].

End Navigation.

(** ** The photo banner (local-storage variant) *)

Module PhotoBanner.

(** The photo side of the page:
    - [photoImage]: [appState.photoImage], [None] for [null];
    - [bannerSrc]: the [src] of [#photoBanner];
    - [bannerHidden]: whether [#photoBannerContainer] carries the class
      [hidden];
    - [saved]: the [photoImage] of the item in local storage, [None] when
      there is no item;
    - [toasts]: the toasts shown, oldest first. *)
Record Photo : Type := mkPhoto {
  photoImage : option string;
  bannerSrc : option string;
  bannerHidden : bool;
  saved : option (option string);
  toasts : list Notification
}.

(** A string is truthy unless it is empty; [null] is falsy. *)
Definition truthy (v : option string) : bool :=
  match v with
  | Some s => bool_decide (s ≠ "")
  | None => false
  end.

(** [a || b] *)
Definition orElse (a b : option string) : option string :=
  if truthy a then a else b.

(** What the file input and the [FileReader] come to: no file was chosen,
    the reader loaded the file as a data URL, or it failed. *)
Inductive FileRead : Type :=
| NoFile
| Loaded (result : string)
| Failed.

Definition notify (message type : string) (p : Photo) : Photo :=
  mkPhoto (photoImage p) (bannerSrc p) (bannerHidden p) (saved p)
    (toasts p ++ [toast message type]).

(** [displayPhoto()] *)
Definition displayPhoto (p : Photo) : Photo :=
  if truthy (photoImage p)
  then mkPhoto (photoImage p) (photoImage p) false (saved p) (toasts p)
  else p.

(** [saveToLocalStorage()], as far as the photo goes.  [setItem] is taken
    to succeed; the data URL of a photo is what most easily exceeds the
    quota, and then the script saves nothing and shows 'Error saving
    data'. *)
Definition saveToLocalStorage (p : Photo) : Photo :=
  mkPhoto (photoImage p) (bannerSrc p) (bannerHidden p) (Some (photoImage p))
    (toasts p).

(** [handlePhotoUpload(e)] together with the reader's callbacks. *)
Definition handlePhotoUpload (file : FileRead) (p : Photo) : Photo :=
  match file with
  | NoFile => p
  | Loaded result =>
      notify "Photo uploaded successfully" "success"
        (saveToLocalStorage
           (displayPhoto
              (mkPhoto (Some result) (bannerSrc p) (bannerHidden p) (saved p)
                 (toasts p))))
  | Failed => notify "Error reading file" "error" p
  end.

(** [removePhoto()], given the visitor's answer to [confirm]. *)
Definition removePhoto (confirmed : bool) (p : Photo) : Photo :=
  if confirmed then
    notify "Photo removed" "success"
      (saveToLocalStorage
         (mkPhoto None (bannerSrc p) true (saved p) (toasts p)))
  else p.

(** [loadFromLocalStorage()], as far as the photo goes. *)
Definition loadFromLocalStorage (p : Photo) : Photo :=
  match saved p with
  | Some parsed =>
      let p' := mkPhoto (orElse parsed (photoImage p)) (bannerSrc p)
                  (bannerHidden p) (saved p) (toasts p) in
      if truthy (photoImage p') then displayPhoto p' else p'
  | None => p
  end.

(** [clearLocalStorage()], as far as the photo goes. *)
Definition clearLocalStorage (confirmed : bool) (p : Photo) : Photo :=
  if confirmed then
    notify "All data cleared" "success"
      (mkPhoto None (bannerSrc p) true None (toasts p))
  else p.

(** The photo side of a freshly loaded page while local storage holds
    [item]: no photo, and the banner container hidden (the markup is
    taken to start it with the class that [displayPhoto] removes). *)
Definition freshPage (item : option (option string)) : Photo :=
  mkPhoto None None true item [].

Definition reopen (p : Photo) : Photo :=
  loadFromLocalStorage (freshPage (saved p)).

Inductive Use : Type :=
| Upload (file : FileRead)
| RemovePhoto (confirmed : bool)
| Save
| Clear (confirmed : bool)
| Reopen.

Definition step (p : Photo) (u : Use) : Photo :=
  match u with
  | Upload file => handlePhotoUpload file p
  | RemovePhoto confirmed => removePhoto confirmed p
  | Save => saveToLocalStorage p
  | Clear confirmed => clearLocalStorage confirmed p
  | Reopen => reopen p
  end.

Definition run (uses : list Use) (p : Photo) : Photo := foldl step p uses.

(** The reader never hands over an empty data URL. *)
Definition loadsData (u : Use) : Prop :=
  match u with
  | Upload (Loaded result) => result ≠ ""
  | _ => True
  end.

Global Instance loadsData_dec u : Decision (loadsData u).
Proof. destruct u as [[]| | | |]; simpl; apply _. Defined.

End PhotoBanner.

(** ** Equations of the local-storage handlers *)

Section LocalEquations.
Import LocalVariant.
Variables (w : World) (now : Z).

Lemma addGuest_blank :
  enteredName w = "" →
  addGuest now w = (Js.undefined, toasted (toast "Please enter a name" "error") w).
Proof.
  unfold enteredName, addGuest. intros Hname. run_handler.
  by rewrite decide_True.
Qed.

Lemma addGuest_too_long :
  50 < String.length (enteredName w) →
  addGuest now w
  = (Js.undefined,
     toasted (toast "Name is too long (max 50 characters)" "error") w).
Proof.
  unfold enteredName, addGuest. intros Hlen. run_handler.
  rewrite decide_False; [by rewrite decide_True|].
  intros Hname. rewrite Hname in Hlen. simpl in Hlen. lia.
Qed.

Lemma addGuest_duplicate :
  enteredName w ≠ "" →
  String.length (enteredName w) ≤ 50 →
  Exists (sameNameIgnoringCase (enteredName w)) (guests w) →
  addGuest now w
  = (Js.undefined,
     toasted (toast "This guest has already been added" "warning")
       (mkWorld (guests w) "" (confirmedCount w) (storage w) (notifications w))).
Proof.
  unfold enteredName, addGuest. intros Hname Hlen Hdup. run_handler.
  rewrite decide_False by done. rewrite decide_False by lia.
  by rewrite decide_True.
Qed.

Lemma addGuest_new :
  enteredName w ≠ "" →
  String.length (enteredName w) ≤ 50 →
  ¬ Exists (sameNameIgnoringCase (enteredName w)) (guests w) →
  addGuest now w
  = (Js.undefined,
     toasted (toast ("✓ " +:+ enteredName w +:+ " added successfully") "success")
       (synced (guests w ++ [Guest.mk now (escapeHtml (enteredName w)) "pending"])
          "" w)).
Proof.
  unfold enteredName, addGuest. intros Hname Hlen Hdup. run_handler.
  rewrite decide_False by done. rewrite decide_False by lia.
  by rewrite decide_False.
Qed.

End LocalEquations.

Section LocalLookups.
Import LocalVariant.
Variables (w : World) (id : Z).

Lemma find_absent :
  id ∉ ids w → list_find (λ g, Guest.id g = id) (guests w) = None.
Proof.
  intros Habsent. apply list_find_None, Forall_forall. intros g Hg Hid.
  apply Habsent. unfold ids. rewrite <- Hid. by apply list_elem_of_fmap_2.
Qed.

Lemma find_present :
  id ∈ ids w →
  ∃ i g, list_find (λ g, Guest.id g = id) (guests w) = Some (i, g).
Proof.
  unfold ids. intros (g & Hid & Hg)%list_elem_of_fmap.
  destruct (list_find_elem_of (λ g, Guest.id g = id) (guests w) g)
    as [[i g'] Hfind]; eauto.
Qed.

Lemma updateGuestStatus_absent newStatus :
  id ∉ ids w → updateGuestStatus id newStatus w = (Js.undefined, w).
Proof.
  intros Habsent. unfold updateGuestStatus. run_handler.
  by rewrite find_absent.
Qed.

Lemma updateGuestStatus_found newStatus i g :
  list_find (λ g, Guest.id g = id) (guests w) = Some (i, g) →
  updateGuestStatus id newStatus w
  = (Js.undefined,
     synced (<[i := Guest.set_status newStatus g]> (guests w)) (inputValue w) w).
Proof.
  intros Hfind. unfold updateGuestStatus. run_handler. by rewrite Hfind.
Qed.

Lemma removeGuest_absent :
  id ∉ ids w → removeGuest id w = (Js.undefined, w).
Proof.
  intros Habsent. unfold removeGuest. run_handler.
  by rewrite find_absent.
Qed.

Lemma removeGuest_found i g :
  list_find (λ g, Guest.id g = id) (guests w) = Some (i, g) →
  removeGuest id w
  = (Js.undefined,
     toasted (toast ("✓ " +:+ Guest.name g +:+ " removed") "success")
       (synced (filter (λ g, Guest.id g ≠ id) (guests w)) (inputValue w) w)).
Proof.
  intros Hfind. unfold removeGuest. run_handler. by rewrite Hfind.
Qed.

End LocalLookups.

(** ** Adding a guest *)

(** C1 (as amended).  With a typed name that is non-empty after trimming
    and at most 50 characters long: in the local-storage variant, when no
    guest is on the roster under that name (case ignored; no stored name
    equals its escaped form or the name itself), [addGuest] appends
    exactly one record to the end, with the clock reading as id, the
    escaped name and status pending, so the length and the pending count
    each grow by one; the new record is not returned: on a roster whose
    rows render the call evaluates to [undefined].  In the remote variant
    [addGuest] appends nothing itself: the roster becomes the list of the
    reload when the POST is ok and the reload reports success, and stays
    as it was otherwise. *)
Theorem C1_add_appends_pending_guest (w : World) (now : Z) :
  enteredName w ≠ "" →
  String.length (enteredName w) ≤ 50 →
  (¬ Exists (duplicateOf (enteredName w)) (guests w) →
   let w' := exec (LocalVariant.addGuest now) w in
   guests w'
   = guests w ++ [Guest.mk now (escapeHtml (enteredName w)) "pending"]
   ∧ length (guests w') = length (guests w) + 1
   ∧ LocalVariant.pending (LocalVariant.getGuestStats w')
     = LocalVariant.pending (LocalVariant.getGuestStats w) + 1
   ∧ (rowsRender w → result (LocalVariant.addGuest now) w = Js.undefined))
  ∧ (∀ post get,
       guests (exec (RemoteVariant.addGuest post get) w)
       = match post, get with
         | RemoteVariant.Responds true _, RemoteVariant.Responds _ data =>
             if RemoteVariant.success data
             then RemoteVariant.listed data
             else guests w
         | _, _ => guests w
         end).
Proof.
  intros Hname Hlen. split.
  - intros Hnew w'. subst w'.
    assert (¬ Exists (sameNameIgnoringCase (enteredName w)) (guests w))
      as Hguard.
    { intros Hdup. apply Hnew. eapply Exists_impl; [exact Hdup|].
      intros g Hg. by right. }
    unfold exec, result. rewrite addGuest_new by done. cbn.
    split_and!; [done| |  |done].
    + rewrite length_app. simpl. lia.
    + unfold countStatus. rewrite filter_app, length_app.
      rewrite filter_cons_True by done. simpl. lia.
  - intros post get. unfold RemoteVariant.addGuest, RemoteVariant.loadGuests.
    fold (enteredName w). run_handler. fold (enteredName w).
    rewrite decide_False by done. rewrite decide_False by lia.
    destruct post as [|[] reply]; [done| |done].
    destruct get as [|ok data]; [done|].
    by destruct (RemoteVariant.success data).
Qed.

Lemma C1_add_appends_pending_guest_witness :
  let w := typing " Alice " LocalVariant.initial in
  enteredName w = "Alice"
  ∧ guests (exec (LocalVariant.addGuest noon) w)
    = [Guest.mk 1 "Sample Guest" "pending"; Guest.mk noon "Alice" "pending"]
  ∧ result (LocalVariant.addGuest noon) w = Js.undefined.
Proof.
  split; [reflexivity|].
  destruct (C1_add_appends_pending_guest
              (typing " Alice " LocalVariant.initial) noon)
    as [Hlocal _]; [compute_done..|].
  destruct Hlocal as (Hguests & _ & _ & Hresult); [compute_done|].
  split; [exact Hguests|]. apply Hresult. compute_done.
Defined.

(** C1 fails as stated.  In the local-storage variant the call that adds
    Alice evaluates to [undefined], not to the new record.  In the remote
    variant the server may refuse the POST, and the roster does not grow.
    And with Tom & Jerry on the roster, stored escaped, the typed name
    [Tom &amp; Jerry] is the name of no guest, yet it equals the stored
    name and is refused with the duplicate warning. *)
Lemma C1_counterexample :
  result (LocalVariant.addGuest noon) (typing " Alice " LocalVariant.initial)
  = Js.undefined
  ∧ guests (exec (RemoteVariant.addGuest
                    (RemoteVariant.Responds false
                       (RemoteVariant.mkReply (Some "Guest already exists")))
                    (RemoteVariant.Responds true
                       (RemoteVariant.mkListing true [])))
              (typing " Alice " RemoteVariant.initial))
    = []
  ∧ ¬ Exists (sameNameIgnoringCase (escapeHtml (enteredName tomAndJerry)))
        (guests tomAndJerry)
  ∧ guests (exec (LocalVariant.addGuest (noon + 1)) tomAndJerry)
    = guests tomAndJerry
  ∧ notifications (exec (LocalVariant.addGuest (noon + 1)) tomAndJerry)
    = notifications tomAndJerry
      ++ [toast "This guest has already been added" "warning"].
Proof. split_and!; (reflexivity || compute_done). Qed.

(** C2.  When the trimmed name is empty or longer than 50 characters,
    [addGuest] fails with a validation error in both variants: one error
    toast is shown and the roster is exactly as before (in the remote
    variant whatever the server would have answered; in the local-storage
    variant the saved copy is untouched as well). *)
Theorem C2_invalid_name_rejected (w : World) (now : Z)
    (post : RemoteVariant.Fetched RemoteVariant.Reply)
    (get : RemoteVariant.Fetched RemoteVariant.Listing) :
  enteredName w = "" ∨ 50 < String.length (enteredName w) →
  failsWith ValidationError w (exec (LocalVariant.addGuest now) w)
  ∧ storage (exec (LocalVariant.addGuest now) w) = storage w
  ∧ failsWith ValidationError w (exec (RemoteVariant.addGuest post get) w).
Proof.
  unfold failsWith, ValidationError, exec. intros [Hblank|Hlong].
  - rewrite addGuest_blank by done.
    unfold RemoteVariant.addGuest. fold (enteredName w). run_handler.
    fold (enteredName w). rewrite decide_True by done. cbn.
    split_and!; try done; by eexists; split; [left|].
  - rewrite addGuest_too_long by done.
    unfold RemoteVariant.addGuest. run_handler. fold (enteredName w).
    rewrite decide_False;
      [rewrite decide_True by done; cbn;
       split_and!; try done; by eexists; split; [right|] |].
    intros Hname. rewrite Hname in Hlong. simpl in Hlong. lia.
Qed.

Lemma C2_invalid_name_rejected_witness :
  let w := typing "   " LocalVariant.initial in
  enteredName w = ""
  ∧ guests (exec (LocalVariant.addGuest noon) w) = guests w
  ∧ notifications (exec (LocalVariant.addGuest noon) w)
    = [toast "Please enter a name" "error"].
Proof.
  split; [reflexivity|].
  destruct (C2_invalid_name_rejected (typing "   " LocalVariant.initial) noon
              RemoteVariant.Throws RemoteVariant.Throws)
    as [[Hguests _] _]; [by left|].
  split; [exact Hguests|reflexivity].
Defined.

(** The duplicate guard, when it fires: in the local-storage variant, when
    the trimmed name has a valid length and some stored name equals it up
    to case, [addGuest] shows the duplicate warning and the roster is
    unchanged.  Stored names are escaped and the typed name is not, so this
    covers the names that escaping leaves alone. *)
Theorem guard_match_is_refused (w : World) (now : Z) :
  enteredName w ≠ "" →
  String.length (enteredName w) ≤ 50 →
  (∃ guest, guest ∈ guests w ∧ sameNameIgnoringCase (enteredName w) guest) →
  failsWith DuplicateError w (exec (LocalVariant.addGuest now) w).
Proof.
  intros Hname Hlen Hdup%Exists_exists. unfold failsWith, DuplicateError, exec.
  rewrite addGuest_duplicate by done. cbn. eauto.
Qed.

Lemma guard_match_is_refused_witness :
  failsWith DuplicateError
    (typing "sample GUEST " LocalVariant.initial)
    (exec (LocalVariant.addGuest noon)
       (typing "sample GUEST " LocalVariant.initial)).
Proof.
  apply (guard_match_is_refused (typing "sample GUEST " LocalVariant.initial) noon).
  - compute_done.
  - compute_done.
  - exists (Guest.mk 1 "Sample Guest" "pending"). split; [|reflexivity].
    apply list_elem_of_here.
Defined.

(** C3: the code at the failing input.  O'Brien is on the roster, stored
    as [O&#039;Brien], and the visitor adds O'Brien again.  The guard
    compares the stored, escaped name with the typed one, finds no match,
    and [addGuest] appends a second record of the same name and shows the
    success toast; no duplicate warning is shown. *)
Lemma C3_duplicate_with_apostrophe_is_added :
  enteredName obrienAgain = "O'Brien"
  ∧ Guest.name <$> guests obrienAgain = ["Sample Guest"; "O&#039;Brien"]
  ∧ Exists (sameNameIgnoringCase (escapeHtml (enteredName obrienAgain)))
      (guests obrienAgain)
  ∧ Guest.name <$> guests (exec (LocalVariant.addGuest (noon + 1)) obrienAgain)
    = ["Sample Guest"; "O&#039;Brien"; "O&#039;Brien"]
  ∧ type <$> (notifications (exec (LocalVariant.addGuest (noon + 1)) obrienAgain))
    = ["success"; "success"].
Proof. split_and!; (reflexivity || compute_done). Qed.

(** ** Unknown ids *)

(** C4 fails as stated.  No guest of the initial roster has id 2, and
    neither [updateGuestStatus(2, 'confirmed')] nor [removeGuest(2)]
    reports anything: no toast is shown and the call evaluates to
    [undefined]. *)
Lemma C4_counterexample :
(2%Z ∉ ids LocalVariant.initial)
  ∧ LocalVariant.updateGuestStatus 2 "confirmed" LocalVariant.initial
    = (Js.undefined, LocalVariant.initial)
  ∧ LocalVariant.removeGuest 2 LocalVariant.initial
    = (Js.undefined, LocalVariant.initial)
  ∧ notifications LocalVariant.initial = [].
Proof. split_and!; [compute_done|reflexivity..]. Qed.

(** C4 (as amended).  In the local-storage variant, for an id that no
    guest of the roster has, [updateGuestStatus] and [removeGuest] do
    nothing at all: the page (roster, saved copy, toasts) is exactly as
    before and the call evaluates to [undefined]; no error is reported. *)
Theorem C4_unknown_id_is_ignored (w : World) (id : Z) (newStatus : string) :
  id ∉ ids w →
  LocalVariant.updateGuestStatus id newStatus w = (Js.undefined, w)
  ∧ LocalVariant.removeGuest id w = (Js.undefined, w).
Proof.
  intros Habsent. split.
  - by apply updateGuestStatus_absent.
  - by apply removeGuest_absent.
Qed.

Lemma C4_unknown_id_is_ignored_witness :
  LocalVariant.updateGuestStatus 2 "declined" sameMillisecond
  = (Js.undefined, sameMillisecond)
  ∧ LocalVariant.removeGuest 2 sameMillisecond
    = (Js.undefined, sameMillisecond).
Proof.
  apply (C4_unknown_id_is_ignored sameMillisecond 2 "declined").
  compute_done.
Defined.

(** ** Changing a status *)

(** C5.  In the local-storage variant, for an id that some guest of the
    roster has, [updateGuestStatus] overwrites the status of one record
    where it sits: the first record [g] with that id, at position [i].
    That record keeps its id and name, every other position holds what it
    held, and the length and the order of ids and names are unchanged. *)
Theorem C5_update_changes_one_status (w : World) (id : Z) (newStatus : string) :
  id ∈ ids w →
  let w' := exec (LocalVariant.updateGuestStatus id newStatus) w in
  ∃ i g,
    guests w !! i = Some g
    ∧ Guest.id g = id
    ∧ (∀ j g', j < i → guests w !! j = Some g' → Guest.id g' ≠ id)
    ∧ guests w' !! i = Some (Guest.mk (Guest.id g) (Guest.name g) newStatus)
    ∧ (∀ j, j ≠ i → guests w' !! j = guests w !! j)
    ∧ length (guests w') = length (guests w)
    ∧ Guest.id <$> guests w' = Guest.id <$> guests w
    ∧ Guest.name <$> guests w' = Guest.name <$> guests w.
Proof.
  intros (i & g & Hfind)%find_present w'. subst w'. unfold exec.
  rewrite (updateGuestStatus_found _ _ _ _ _ Hfind). cbn.
  apply list_find_Some in Hfind as (Hi & Hid & Hfirst).
  exists i, g. split_and!; try done.
  - intros j g' Hj Hg'. by eapply Hfirst.
  - apply list_lookup_insert_eq. by eapply lookup_lt_Some.
  - intros j Hj. by apply list_lookup_insert_ne.
  - apply length_insert.
  - rewrite list_fmap_insert. cbn. apply list_insert_id.
    by rewrite list_lookup_fmap, Hi.
  - rewrite list_fmap_insert. cbn. apply list_insert_id.
    by rewrite list_lookup_fmap, Hi.
Qed.

Lemma C5_update_changes_one_status_witness :
  noon ∈ ids sameMillisecond
  ∧ ∃ i g,
      guests sameMillisecond !! i = Some g
      ∧ Guest.id g = noon
      ∧ guests (exec (LocalVariant.updateGuestStatus noon "confirmed")
                  sameMillisecond) !! i
        = Some (Guest.mk (Guest.id g) (Guest.name g) "confirmed")
      ∧ length (guests (exec (LocalVariant.updateGuestStatus noon "confirmed")
                          sameMillisecond))
        = length (guests sameMillisecond).
Proof.
  assert (noon ∈ ids sameMillisecond) as Hin by compute_done.
  split; [exact Hin|].
  destruct (C5_update_changes_one_status sameMillisecond noon "confirmed" Hin)
    as (i & g & Hi & Hid & _ & Hnew & _ & Hlen & _).
  exists i, g. by split_and!.
Defined.

(** ** Removing a guest *)

Lemma filter_keeps_all {A} (P : A → Prop) `{∀ x, Decision (P x)} (l : list A) :
  Forall P l → filter P l = l.
Proof.
  induction 1 as [|x l Hx _ IH]; [done|].
  by rewrite filter_cons_True, IH.
Qed.

(** With pairwise distinct ids, filtering out the id of one record drops
    that record and nothing else. *)
Lemma filter_out_unique_id (before after : list Guest.t) (g : Guest.t) :
  NoDup (Guest.id <$> (before ++ g :: after)) →
  filter (λ x, Guest.id x ≠ Guest.id g) (before ++ g :: after)
  = before ++ after.
Proof.
  rewrite fmap_app, fmap_cons.
  intros (_ & Hbefore & [Hafter _]%NoDup_cons)%NoDup_app.
  rewrite filter_app, filter_cons_False by (intros Hne; by apply Hne).
  rewrite !filter_keeps_all; [done|..]; apply Forall_forall; intros x Hx Hid.
  - apply Hafter. rewrite <- Hid. by apply list_elem_of_fmap_2.
  - apply (Hbefore (Guest.id x)); [by apply list_elem_of_fmap_2|].
    rewrite Hid. apply list_elem_of_here.
Qed.

Lemma removed_id_is_gone (gs : list Guest.t) (id : Z) :
  id ∉ Guest.id <$> filter (λ g, Guest.id g ≠ id) gs.
Proof.
  intros (g & Hid & [Hne _]%list_elem_of_filter)%list_elem_of_fmap.
  by apply Hne.
Qed.

(** C6 fails as stated.  Ann and Bob, added within one millisecond, share
    an id.  Removing by that id takes the roster from three records to
    one, and the call evaluates to [undefined], not to a record. *)
Lemma C6_counterexample :
  noon ∈ ids sameMillisecond
  ∧ length (guests sameMillisecond) = 3
  ∧ guests (exec (LocalVariant.removeGuest noon) sameMillisecond)
    = [Guest.mk 1 "Sample Guest" "pending"]
  ∧ result (LocalVariant.removeGuest noon) sameMillisecond = Js.undefined.
Proof. split_and!; [compute_done|reflexivity..]. Qed.

(** C6 (as amended).  In the local-storage variant, for every roster and
    every id that some guest of it has, after [removeGuest] the id is
    absent from the roster and the roster is what it was without the
    records of that id, in the same order.  When the ids of the roster are
    pairwise distinct, exactly one record is dropped and the length
    decreases by one.  The removed record is not returned: on a roster
    whose rows render the call evaluates to [undefined]. *)
Theorem C6_remove_drops_the_record (w : World) (id : Z) :
  id ∈ ids w →
  let w' := exec (LocalVariant.removeGuest id) w in
  (id ∉ ids w')
  ∧ guests w' = filter (λ g, Guest.id g ≠ id) (guests w)
  ∧ (NoDup (ids w) →
     ∃ before g after,
       guests w = before ++ g :: after
       ∧ Guest.id g = id
       ∧ guests w' = before ++ after
       ∧ length (guests w') + 1 = length (guests w))
  ∧ (rowsRender w → result (LocalVariant.removeGuest id) w = Js.undefined).
Proof.
  intros (i & g & Hfind)%find_present w'. subst w'.
  unfold exec, result, ids in *.
  rewrite (removeGuest_found _ _ _ _ Hfind). cbn.
  split_and!; [apply removed_id_is_gone|done| |done].
  intros Hdistinct.
  apply list_find_Some in Hfind as (Hi & Hid & _).
  pose proof (take_drop_middle _ _ _ Hi) as Hsplit.
  exists (take i (guests w)), g, (drop (S i) (guests w)).
  assert (filter (λ x, Guest.id x ≠ id) (guests w)
          = take i (guests w) ++ drop (S i) (guests w)) as Hfilter.
  { rewrite <- Hid. rewrite <- Hsplit at 1.
    apply filter_out_unique_id. by rewrite Hsplit. }
  split_and!; try done.
  rewrite Hfilter. rewrite <- Hsplit at 3. rewrite !length_app. simpl. lia.
Qed.

Lemma C6_remove_drops_the_record_witness :
  noon ∈ ids rsvps
  ∧ guests (exec (LocalVariant.removeGuest noon) rsvps)
    = [Guest.mk 1 "Sample Guest" "pending";
       Guest.mk (noon + 60000) "Bob" "pending"]
  ∧ (∃ before g after,
       guests rsvps = before ++ g :: after
       ∧ Guest.id g = noon
       ∧ guests (exec (LocalVariant.removeGuest noon) rsvps) = before ++ after
       ∧ length (guests (exec (LocalVariant.removeGuest noon) rsvps)) + 1
         = length (guests rsvps))
  ∧ result (LocalVariant.removeGuest noon) rsvps = Js.undefined.
Proof.
  assert (noon ∈ ids rsvps) as Hin by compute_done.
  destruct (C6_remove_drops_the_record rsvps noon Hin)
    as (_ & Hfilter & Hone & Hresult).
  split_and!.
  - exact Hin.
  - rewrite Hfilter. reflexivity.
  - apply Hone. compute_done.
  - apply Hresult. compute_done.
Defined.

(** ** Trimming and escaping *)

Section Strings.
Import Js.

Lemma append_cons (c : ascii) (s t : string) :
  String c s +:+ t = String c (s +:+ t).
Proof. reflexivity. Qed.

Lemma append_empty_r (s : string) : s +:+ "" = s.
Proof. induction s as [|c s IH]; [done|]. by rewrite append_cons, IH. Qed.

Lemma length_append (s t : string) :
  String.length (s +:+ t) = String.length s + String.length t.
Proof.
  induction s as [|c s IH]; [done|]. rewrite append_cons. simpl. by rewrite IH.
Qed.

Lemma append_nonempty_r (s t : string) : t ≠ "" → s +:+ t ≠ "".
Proof. by destruct s. Qed.

Lemma trimStart_head (s : string) :
  trimStart s = ""
  ∨ ∃ c t, trimStart s = String c t ∧ isWhiteSpace c = false.
Proof.
  induction s as [|c s IH]; [by left|]. simpl.
  destruct (isWhiteSpace c) eqn:Hc; [done|]. right. eauto.
Qed.

Lemma trimEnd_head (c : ascii) (s : string) :
  isWhiteSpace c = false → ∃ u, trimEnd (String c s) = String c u.
Proof. intros Hc. simpl. rewrite Hc. destruct (trimEnd s); eauto. Qed.

Lemma trimEnd_idempotent (s : string) : trimEnd (trimEnd s) = trimEnd s.
Proof.
  induction s as [|c s IH]; [done|]. simpl.
  destruct (trimEnd s) as [|d t] eqn:Hs.
  - destruct (isWhiteSpace c) eqn:Hc; [done|]. simpl. by rewrite Hc.
  - change (trimEnd (String c (String d t))) with
      (match trimEnd (String d t) with
       | "" => if isWhiteSpace c then "" else String c ""
       | u => String c u
       end).
    by rewrite IH.
Qed.

Lemma trim_idempotent (s : string) : trim (trim s) = trim s.
Proof.
  unfold trim. destruct (trimStart_head s) as [->|(c & t & -> & Hc)]; [done|].
  destruct (trimEnd_head c t Hc) as [u Hu].
  rewrite Hu at 1. simpl trimStart. rewrite Hc, <- Hu.
  apply trimEnd_idempotent.
Qed.

(** A non-empty string that trimming leaves alone starts with a character
    that is not white space and is left alone by [trimEnd]. *)
Lemma trim_fixed_inv (s : string) :
  trim s = s → s ≠ "" →
  (∃ c u, s = String c u ∧ isWhiteSpace c = false) ∧ trimEnd s = s.
Proof.
  unfold trim. intros Hs Hne.
  destruct (trimStart_head s) as [Hstart|(c & t & Hstart & Hc)].
  - rewrite Hstart in Hs. by destruct Hne.
  - destruct (trimEnd_head c t Hc) as [u Hu].
    assert (s = String c u) as -> by congruence.
    split; [eauto|].
    simpl trimStart in Hs. by rewrite Hc in Hs.
Qed.

Lemma trim_fixed_intro (c : ascii) (u : string) :
  isWhiteSpace c = false →
  trimEnd (String c u) = String c u → trim (String c u) = String c u.
Proof. intros Hc Hend. unfold trim. simpl trimStart. by rewrite Hc. Qed.

Lemma trimEnd_fixed_inv (c : ascii) (s : string) :
  trimEnd (String c s) = String c s →
  (s = "" ∧ isWhiteSpace c = false) ∨ (s ≠ "" ∧ trimEnd s = s).
Proof.
  simpl. destruct (trimEnd s) as [|d t] eqn:Hs.
  - destruct (isWhiteSpace c); [done|]. intros [= <-]. by left.
  - intros [= <-]. by right.
Qed.

Lemma trimEnd_append (a s : string) :
  trimEnd s = s → s ≠ "" → trimEnd (a +:+ s) = a +:+ s.
Proof.
  intros Hs Hne. induction a as [|c a IH]; [done|].
  rewrite append_cons. simpl. rewrite IH.
  pose proof (append_nonempty_r a s Hne). by destruct (a +:+ s).
Qed.

Lemma escapeChar_cases (c : ascii) :
  escapeChar c = String c ""
  ∨ escapeChar c = "&amp;" ∨ escapeChar c = "&lt;" ∨ escapeChar c = "&gt;"
  ∨ escapeChar c = "&quot;" ∨ escapeChar c = "&#039;".
Proof. unfold escapeChar. repeat case_decide; tauto. Qed.

Lemma escapeChar_shape (c : ascii) :
  isWhiteSpace c = false →
  ∃ d v, escapeChar c = String d v
         ∧ isWhiteSpace d = false
         ∧ trimEnd (escapeChar c) = escapeChar c.
Proof.
  intros Hc.
  destruct (escapeChar_cases c) as [->|[->|[->|[->|[->| ->]]]]];
    [exists c, ""; simpl; by rewrite Hc|by eexists _, _..].
Qed.

Lemma length_escapeChar (c : ascii) : 1 ≤ String.length (escapeChar c) ≤ 6.
Proof.
  destruct (escapeChar_cases c) as [->|[->|[->|[->|[->| ->]]]]]; simpl; lia.
Qed.

Lemma length_escapeHtml (s : string) :
  String.length s ≤ String.length (escapeHtml s) ≤ 6 * String.length s.
Proof.
  induction s as [|c s IH]; [simpl; lia|].
  simpl escapeHtml. rewrite length_append. simpl String.length.
  pose proof (length_escapeChar c). lia.
Qed.

Lemma escapeHtml_nonempty (s : string) : s ≠ "" → escapeHtml s ≠ "".
Proof.
  intros Hne Hesc. pose proof (length_escapeHtml s) as Hlen.
  rewrite Hesc in Hlen. destruct s; [done|]. simpl in Hlen. lia.
Qed.

Lemma trimEnd_escapeHtml (s : string) :
  s ≠ "" → trimEnd s = s → trimEnd (escapeHtml s) = escapeHtml s.
Proof.
  induction s as [|c s IH]; [done|]. intros _ Hfixed. simpl escapeHtml.
  destruct (trimEnd_fixed_inv c s Hfixed) as [[-> Hc]|[Hne Hs]].
  - simpl. rewrite append_empty_r.
    by destruct (escapeChar_shape c Hc) as (_ & _ & _ & _ & ?).
  - apply trimEnd_append; [by apply IH|by apply escapeHtml_nonempty].
Qed.

(** Escaping a trimmed name gives a string that trimming leaves alone. *)
Lemma trim_escapeHtml (s : string) :
  trim s = s → trim (escapeHtml s) = escapeHtml s.
Proof.
  intros Hs. destruct (decide (s = "")) as [->|Hne]; [done|].
  destruct (trim_fixed_inv s Hs Hne) as [(c & u & -> & Hc) Hend].
  pose proof (trimEnd_escapeHtml _ Hne Hend) as Hesc.
  simpl escapeHtml in *.
  destruct (escapeChar_shape c Hc) as (d & v & Hshape & Hd & _).
  rewrite Hshape in *. simpl in Hesc |- *.
  by apply trim_fixed_intro.
Qed.

End Strings.

(** ** How each use changes the roster (local-storage variant) *)

Section RosterSteps.
Import LocalVariant.

(** [addGuest] leaves the roster alone or appends one record built from a
    valid trimmed name. *)
Lemma addGuest_roster (w : World) (now : Z) :
  guests (exec (addGuest now) w) = guests w
  ∨ (enteredName w ≠ ""
     ∧ String.length (enteredName w) ≤ 50
     ∧ guests (exec (addGuest now) w)
       = guests w ++ [Guest.mk now (escapeHtml (enteredName w)) "pending"]).
Proof.
  unfold exec.
  destruct (decide (enteredName w = "")) as [Hblank|Hname].
  { left. rewrite addGuest_blank by done. reflexivity. }
  destruct (decide (50 < String.length (enteredName w))) as [Hlong|Hlen].
  { left. rewrite addGuest_too_long by done. reflexivity. }
  destruct (decide (Exists (sameNameIgnoringCase (enteredName w)) (guests w)))
    as [Hdup|Hnew].
  { left. rewrite addGuest_duplicate by (done || lia). reflexivity. }
  right. rewrite addGuest_new by (done || lia). split_and!; (done || lia).
Qed.

(** [updateGuestStatus] leaves the roster alone or overwrites the status
    of a record at its position. *)
Lemma updateGuestStatus_roster (w : World) (id : Z) (newStatus : string) :
  guests (exec (updateGuestStatus id newStatus) w) = guests w
  ∨ ∃ i g, guests w !! i = Some g
           ∧ guests (exec (updateGuestStatus id newStatus) w)
             = <[i := Guest.set_status newStatus g]> (guests w).
Proof.
  unfold exec. destruct (decide (id ∈ ids w)) as [Hin|Hout].
  - right. destruct (find_present w id Hin) as (i & g & Hfind).
    rewrite (updateGuestStatus_found _ _ _ _ _ Hfind).
    apply list_find_Some in Hfind as (Hi & _). eauto.
  - left. by rewrite updateGuestStatus_absent.
Qed.

(** [removeGuest] keeps, in their order, the records with another id. *)
Lemma removeGuest_roster (w : World) (id : Z) :
  guests (exec (removeGuest id) w) = filter (λ g, Guest.id g ≠ id) (guests w).
Proof.
  unfold exec. destruct (decide (id ∈ ids w)) as [Hin|Hout].
  - destruct (find_present w id Hin) as (i & g & Hfind).
    by rewrite (removeGuest_found _ _ _ _ Hfind).
  - rewrite removeGuest_absent by done. simpl.
    symmetry. apply filter_keeps_all, Forall_forall. intros g Hg Hid.
    apply Hout. unfold ids. rewrite <- Hid. by apply list_elem_of_fmap_2.
Qed.

(** The roster after one use, by the kind of use. *)
Lemma step_roster (w : World) (op : Op) :
  match op with
  | Add input now =>
      guests (step w op) = guests w
      ∨ (Js.trim input ≠ ""
         ∧ String.length (Js.trim input) ≤ 50
         ∧ guests (step w op)
           = guests w ++ [Guest.mk now (escapeHtml (Js.trim input)) "pending"])
  | UpdateStatus id newStatus =>
      guests (step w op) = guests w
      ∨ ∃ i g, guests w !! i = Some g
               ∧ guests (step w op)
                 = <[i := Guest.set_status newStatus g]> (guests w)
  | Remove id =>
      guests (step w op) = filter (λ g, Guest.id g ≠ id) (guests w)
  end.
Proof.
  destruct op as [input now|id newStatus|id].
  - apply (addGuest_roster (typing input w) now).
  - apply updateGuestStatus_roster.
  - apply removeGuest_roster.
Qed.

(** An invariant of the records that every use keeps holds after any
    sequence of uses. *)
Lemma run_invariant (P : World → Prop) (ops : list Op) (w : World) :
  (∀ w op, op ∈ ops → P w → P (step w op)) → P w → P (run ops w).
Proof.
  revert w. induction ops as [|op ops IH]; intros w Hstep Hw; [done|].
  apply IH.
  - intros w' op' Hin. apply Hstep. by apply list_elem_of_further.
  - apply Hstep; [apply list_elem_of_here|done].
Qed.

Lemma Forall_filter_keeps {A} (P Q : A → Prop) `{∀ x, Decision (Q x)}
    (l : list A) :
  Forall P l → Forall P (filter Q l).
Proof.
  rewrite !Forall_forall. intros Hl x [_ Hx]%list_elem_of_filter. by apply Hl.
Qed.

Lemma NoDup_fmap_filter {A B} (f : A → B) (Q : A → Prop)
    `{∀ x, Decision (Q x)} (l : list A) :
  NoDup (f <$> l) → NoDup (f <$> filter Q l).
Proof.
  induction l as [|x l IH]; [done|].
  rewrite fmap_cons, NoDup_cons. intros [Hx Hl].
  rewrite filter_cons. case_decide; [|by apply IH].
  rewrite fmap_cons, NoDup_cons. split; [|by apply IH].
  intros (y & Hy & [_ Hin]%list_elem_of_filter)%list_elem_of_fmap.
  apply Hx. rewrite Hy. by apply list_elem_of_fmap_2.
Qed.

End RosterSteps.

(** ** Invariants of the roster *)

(** C7 fails as stated.  [updateGuestStatus] stores the status it is
    given: after [updateGuestStatus(1, 'maybe')] on the initial roster the
    sample guest has status maybe, which is none of the three values. *)
Lemma C7_counterexample :
  Guest.status
    <$> guests (LocalVariant.run [LocalVariant.UpdateStatus 1 "maybe"]
                  LocalVariant.initial)
  = ["maybe"]
  ∧ "maybe" ∉ statuses.
Proof. split; [reflexivity|compute_done]. Qed.

(** C7 (as amended).  In the local-storage variant, after any sequence of
    adds, status changes and removals from the initial roster in which
    every status change passes one of pending, confirmed and declined
    (what the select of a row offers), every guest's status is one of the
    three values. *)
Theorem C7_status_in_enumeration (ops : list LocalVariant.Op) :
  Forall offersStatus ops →
  Forall (λ g, Guest.status g ∈ statuses)
    (guests (LocalVariant.run ops LocalVariant.initial)).
Proof.
  intros Hops.
  apply (run_invariant (λ w, Forall (λ g, Guest.status g ∈ statuses) (guests w))).
  - intros w op Hin Hw.
    pose proof (proj1 (Forall_forall _ _) Hops op Hin) as Hop.
    pose proof (step_roster w op) as Hstep.
    destruct op as [input now|id newStatus|id].
    + destruct Hstep as [->|(_ & _ & ->)]; [done|].
      apply Forall_app. split; [done|].
      apply Forall_singleton. compute_done.
    + destruct Hstep as [->|(i & g & Hi & ->)]; [done|].
      by apply Forall_insert.
    + rewrite Hstep. by apply Forall_filter_keeps.
  - apply Forall_singleton. compute_done.
Qed.

Lemma C7_status_in_enumeration_witness :
  Forall (λ g, Guest.status g ∈ statuses) (guests rsvps).
Proof.
  apply (C7_status_in_enumeration
           [LocalVariant.Add "Ann" noon;
            LocalVariant.UpdateStatus noon "confirmed";
            LocalVariant.Add "Bob" (noon + 60000)]).
  repeat constructor; compute_done.
Defined.

(** C8 fails as stated.  [longName] has 50 characters, so [addGuest]
    accepts it; the stored name is its escaped form, which is 54
    characters long. *)
Lemma C8_counterexample :
  Js.trim longName = longName
  ∧ String.length longName = 50
  ∧ (λ g, String.length (Js.trim (Guest.name g)))
      <$> guests (LocalVariant.run [LocalVariant.Add longName noon]
                    LocalVariant.initial)
    = [12; 54].
Proof. split_and!; reflexivity. Qed.

Lemma escapedValidName_bounds (stored : string) :
  escapedValidName stored →
  Js.trim stored = stored ∧ 1 ≤ String.length stored ≤ 300.
Proof.
  intros (raw & Htrim & Hlen & ->). split; [by apply trim_escapeHtml|].
  pose proof (length_escapeHtml raw). lia.
Qed.

(** C8 (as amended).  In the local-storage variant, after any sequence of
    adds, status changes and removals from the initial roster, every
    stored name is the escaped form of a trimmed name of 1 to 50
    characters; trimming leaves the stored name as it is, and the stored
    name is non-empty and at most 300 characters long (an escaped
    character takes up to 6). *)
Theorem C8_names_escaped_and_bounded (ops : list LocalVariant.Op) :
  Forall (λ g, escapedValidName (Guest.name g)
               ∧ Js.trim (Guest.name g) = Guest.name g
               ∧ 1 ≤ String.length (Js.trim (Guest.name g)) ≤ 300)
    (guests (LocalVariant.run ops LocalVariant.initial)).
Proof.
  eapply Forall_impl.
  - apply (run_invariant
             (λ w, Forall (λ g, escapedValidName (Guest.name g)) (guests w)) ops).
    + intros w op _ Hw. pose proof (step_roster w op) as Hstep.
      destruct op as [input now|id newStatus|id].
      * destruct Hstep as [->|(Hname & Hlen & ->)]; [done|].
        apply Forall_app. split; [done|]. apply Forall_singleton.
        exists (Js.trim input). split_and!; try done.
        -- apply trim_idempotent.
        -- destruct (Js.trim input); [done|simpl; lia].
      * destruct Hstep as [->|(i & g & Hi & ->)]; [done|].
        apply Forall_insert; [done|].
        by apply (Forall_lookup_1 _ _ _ _ Hw Hi).
      * rewrite Hstep. by apply Forall_filter_keeps.
    + apply Forall_singleton. exists "Sample Guest".
      split_and!; (reflexivity || (simpl; lia)).
  - intros g Hg. destruct (escapedValidName_bounds _ Hg) as [Htrim Hlen].
    by rewrite Htrim.
Qed.

(** C9 fails as stated.  The id is the clock reading, so Ann and Bob,
    added within one millisecond, carry the same id. *)
Lemma C9_counterexample :
  guests sameMillisecond
  = [Guest.mk 1 "Sample Guest" "pending";
     Guest.mk noon "Ann" "pending";
     Guest.mk noon "Bob" "pending"]
  ∧ ¬ NoDup (ids sameMillisecond).
Proof. split; [reflexivity|compute_done]. Qed.

Lemma run_keeps_ids_distinct (ops : list LocalVariant.Op) (w : World) :
  NoDup (ids w) → clockFresh ops w → NoDup (ids (LocalVariant.run ops w)).
Proof.
  revert w. induction ops as [|op ops IH]; intros w Hw Hfresh; [done|].
  destruct Hfresh as [Hop Hrest]. apply IH; [|done].
  pose proof (step_roster w op) as Hstep. unfold ids in *.
  destruct op as [input now|id newStatus|id].
  - destruct Hstep as [->|(_ & _ & ->)]; [done|].
    rewrite fmap_app. apply NoDup_app. split_and!; [done| |apply NoDup_singleton].
    intros x Hx ->%list_elem_of_singleton. by apply Hop.
  - destruct Hstep as [->|(i & g & Hi & ->)]; [done|].
    rewrite list_fmap_insert. cbn. rewrite list_insert_id; [done|].
    by rewrite list_lookup_fmap, Hi.
  - rewrite Hstep. by apply NoDup_fmap_filter.
Qed.

(** C9 (as amended).  In the local-storage variant, after any sequence of
    adds, status changes and removals from the initial roster in which
    every add happens at a clock reading that is not the id of a guest
    then on the roster, the ids of the guests are pairwise distinct. *)
Theorem C9_ids_distinct (ops : list LocalVariant.Op) :
  clockFresh ops LocalVariant.initial →
  NoDup (ids (LocalVariant.run ops LocalVariant.initial)).
Proof. apply run_keeps_ids_distinct. compute_done. Qed.

Lemma C9_ids_distinct_witness :
  ids rsvps = [1; noon; noon + 60000]%Z ∧ NoDup (ids rsvps).
Proof.
  split; [reflexivity|].
  apply (C9_ids_distinct
           [LocalVariant.Add "Ann" noon;
            LocalVariant.UpdateStatus noon "confirmed";
            LocalVariant.Add "Bob" (noon + 60000)]).
  compute_done.
Defined.

(** ** Failures of the server (remote variant) *)

(** The remote variant assigns [appState.guests] in one place only: in
    [loadGuests], when the reload reports success. *)
Lemma loadGuests_roster (get : RemoteVariant.Fetched RemoteVariant.Listing)
    (w : World) :
  guests (exec (RemoteVariant.loadGuests get) w)
  = match get with
    | RemoteVariant.Responds _ data =>
        if RemoteVariant.success data then RemoteVariant.listed data
        else guests w
    | RemoteVariant.Throws => guests w
    end.
Proof.
  destruct get as [|ok data]; [done|].
  unfold RemoteVariant.loadGuests. by destruct (RemoteVariant.success data).
Qed.

(** C10.  In the remote variant, when the fetch of an operation throws or
    the reload fails (it throws or does not report success), the roster in
    memory is exactly what it was before the operation; this holds for
    add, status change, removal and load alike. *)
Theorem C10_io_error_keeps_roster (c : RemoteVariant.Call) (w : World) :
  RemoteVariant.ioError c →
  guests (exec (RemoteVariant.perform c) w) = guests w.
Proof.
  destruct c as [post get|id newStatus put get|id confirmed del get|get];
    simpl; intros Hio.
  - unfold RemoteVariant.addGuest, RemoteVariant.loadGuests. run_handler.
    repeat case_decide; try done.
    destruct post as [|[] reply]; try done.
    destruct Hio as [?|Hget]; [done|].
    destruct get as [|ok data]; [done|]. simpl in Hget. by rewrite Hget.
  - unfold RemoteVariant.updateGuestStatus, RemoteVariant.loadGuests.
    run_handler. destruct put as [|[] reply]; try done.
    destruct Hio as [?|Hget]; [done|].
    destruct get as [|ok data]; [done|]. simpl in Hget. by rewrite Hget.
  - unfold RemoteVariant.removeGuest, RemoteVariant.loadGuests. run_handler.
    destruct confirmed; [|done].
    destruct del as [|[] reply]; try done.
    destruct Hio as [?|Hget]; [done|].
    destruct get as [|ok data]; [done|]. simpl in Hget. by rewrite Hget.
  - rewrite loadGuests_roster.
    destruct get as [|ok data]; [done|]. simpl in Hio. by rewrite Hio.
Qed.

Lemma C10_io_error_keeps_roster_witness :
  guests (exec (RemoteVariant.perform
                  (RemoteVariant.Add
                     (RemoteVariant.Responds true (RemoteVariant.mkReply None))
                     RemoteVariant.Throws))
            (typing "Ann" serverRoster))
  = guests serverRoster
  ∧ guests (exec (RemoteVariant.perform
                    (RemoteVariant.Remove 7 true RemoteVariant.Throws
                       (RemoteVariant.Responds true
                          (RemoteVariant.mkListing true []))))
              serverRoster)
    = guests serverRoster.
Proof.
  split.
  - apply (C10_io_error_keeps_roster _ (typing "Ann" serverRoster)).
    simpl. by right.
  - apply (C10_io_error_keeps_roster _ serverRoster). simpl. by left.
Defined.

(** ** Importing a file *)

(** [importGuestList] installs the array of the file as it is: it checks
    no name, status or id, and it has replaced the roster before the rows
    are rendered, so also when the rendering fails and the error toast is
    shown.  The invariants above are those of rosters built by adds,
    status changes and removals. *)
Remark importGuestList_installs_the_file (gs : list Guest.t)
    (rendered : bool) (w : World) :
  guests (exec (LocalVariant.importGuestList (LocalVariant.WithGuests gs)
                  rendered) w) = gs
  ∧ guests (exec (LocalVariant.importGuestList (LocalVariant.BareArray gs)
                    rendered) w) = gs
  ∧ guests (exec (LocalVariant.importGuestList LocalVariant.Unusable
                    rendered) w)
    = guests w.
Proof. by destruct rendered. Qed.

(** ** The counter of confirmed guests *)

(** After any sequence of adds, status changes and removals from the
    initial roster the counter on the page shows the number of records
    whose status is confirmed: the stored names of such a roster are
    escaped, so the rows render and [updateConfirmedCount()] is reached,
    and it runs before the save. *)
Theorem confirmedCount_counts_confirmed (ops : list LocalVariant.Op) :
  confirmedCount (LocalVariant.run ops LocalVariant.initial)
  = countStatus "confirmed" (guests (LocalVariant.run ops LocalVariant.initial)).
Proof.
  apply (run_invariant
           (λ w, confirmedCount w = countStatus "confirmed" (guests w))); [|done].
  intros w op _ Hw. destruct op as [input now|id newStatus|id].
  - change (LocalVariant.step w (LocalVariant.Add input now))
      with (exec (LocalVariant.addGuest now) (typing input w)).
    assert (confirmedCount (typing input w)
            = countStatus "confirmed" (guests (typing input w))) as Htyped by done.
    unfold exec.
    destruct (decide (enteredName (typing input w) = "")) as [Hblank|Hname].
    { by rewrite addGuest_blank by done. }
    destruct (decide (50 < String.length (enteredName (typing input w))))
      as [Hlong|Hlen].
    { by rewrite addGuest_too_long by done. }
    destruct (decide (Exists (sameNameIgnoringCase (enteredName (typing input w)))
                        (guests (typing input w)))) as [Hdup|Hnew].
    { by rewrite addGuest_duplicate by (done || lia). }
    by rewrite addGuest_new by (done || lia).
  - unfold LocalVariant.step, exec.
    destruct (decide (id ∈ ids w)) as [Hin|Hout].
    + destruct (find_present w id Hin) as (i & g & Hfind).
      by rewrite (updateGuestStatus_found _ _ _ _ _ Hfind).
    + by rewrite updateGuestStatus_absent.
  - unfold LocalVariant.step, exec.
    destruct (decide (id ∈ ids w)) as [Hin|Hout].
    + destruct (find_present w id Hin) as (i & g & Hfind).
      by rewrite (removeGuest_found _ _ _ _ Hfind).
    + by rewrite removeGuest_absent.
Qed.

(** The example of the specification, in the local-storage variant from
    an empty roster: adding Alice lists her as pending under the clock
    reading, and confirming her under that id makes the counter 1. *)
Example add_then_confirm_alice :
  let empty := mkWorld [] "" 0 None [] in
  let added := LocalVariant.step empty (LocalVariant.Add "Alice" noon) in
  let confirmed := LocalVariant.step added (LocalVariant.UpdateStatus noon "confirmed") in
  guests added = [Guest.mk noon "Alice" "pending"]
  ∧ guests confirmed = [Guest.mk noon "Alice" "confirmed"]
  ∧ confirmedCount confirmed = 1.
Proof. split_and!; reflexivity. Qed.

(** ** More on escaping *)

Lemma occurs_append (c : ascii) (s t : string) :
  occurs c (s +:+ t) ↔ occurs c s ∨ occurs c t.
Proof.
  induction s as [|d s IH]; [simpl; tauto|].
  rewrite append_cons. simpl. rewrite IH. tauto.
Qed.

Lemma markup_cases (c : ascii) :
  c ∈ markup
  ↔ c = "<"%char ∨ c = ">"%char ∨ c = "034"%char ∨ c = "'"%char.
Proof.
  unfold markup. rewrite !elem_of_cons, elem_of_nil. tauto.
Qed.

Lemma escapable_cases (c : ascii) :
  c ∈ escapable
  ↔ c = "&"%char ∨ c = "<"%char ∨ c = ">"%char ∨ c = "034"%char
    ∨ c = "'"%char.
Proof.
  unfold escapable. rewrite elem_of_cons, markup_cases. tauto.
Qed.

(** [escapeChar] by cases: a character outside the class stays, a
    character of the class becomes its entity. *)
Lemma escapeChar_spec (c : ascii) :
((c ∉ escapable) ∧ escapeChar c = String c "")
  ∨ (c = "&"%char ∧ escapeChar c = "&amp;")
  ∨ (c = "<"%char ∧ escapeChar c = "&lt;")
  ∨ (c = ">"%char ∧ escapeChar c = "&gt;")
  ∨ (c = "034"%char ∧ escapeChar c = "&quot;")
  ∨ (c = "'"%char ∧ escapeChar c = "&#039;").
Proof.
  unfold escapeChar. repeat case_decide; subst; auto 10.
  left. split; [|done]. rewrite escapable_cases. tauto.
Qed.

(** The escaped text holds no less-than, greater-than, double quote or
    apostrophe, whatever the text was. *)
Theorem escapeHtml_no_markup (text : string) (c : ascii) :
  c ∈ markup → ¬ occurs c (escapeHtml text).
Proof.
  intros Hc. induction text as [|d text IH]; [by intros []|].
  simpl escapeHtml. rewrite occurs_append. intros [Hd|Hrest]; [|done].
  assert (c ∈ escapable) as Hesc by by apply list_elem_of_further.
  apply markup_cases in Hc.
  destruct (escapeChar_spec d)
    as [[Hd' Heq]|[[_ Heq]|[[_ Heq]|[[_ Heq]|[[_ Heq]|[_ Heq]]]]]];
    rewrite Heq in Hd.
  - by destruct Hd as [->|[]].
  - revert Hd. destruct Hc as [->|[->|[->| ->]]]; compute_done.
  - revert Hd. destruct Hc as [->|[->|[->| ->]]]; compute_done.
  - revert Hd. destruct Hc as [->|[->|[->| ->]]]; compute_done.
  - revert Hd. destruct Hc as [->|[->|[->| ->]]]; compute_done.
  - revert Hd. destruct Hc as [->|[->|[->| ->]]]; compute_done.
Qed.

Lemma escapeHtml_no_markup_witness :
  ¬ occurs "<"%char (escapeHtml "<b>Bob</b>")
  ∧ escapeHtml "<b>Bob</b>" = "&lt;b&gt;Bob&lt;/b&gt;".
Proof.
  split; [|reflexivity].
  apply (escapeHtml_no_markup "<b>Bob</b>" "<"%char). compute_done.
Defined.

(** Escaping changes a text exactly when one of the five characters of
    the class occurs in it. *)
Theorem escapeHtml_unchanged_iff (text : string) :
  escapeHtml text = text ↔ ∀ c, c ∈ escapable → ¬ occurs c text.
Proof.
  induction text as [|d text IH]; [split; [by intros _ c _ []|done]|].
  simpl escapeHtml. split.
  - intros Heq c Hc.
    destruct (escapeChar_spec d)
      as [[Hd Hplain]|Hentity].
    + rewrite Hplain, append_cons in Heq. injection Heq as Heq.
      intros [->|Hrest]; [done|]. by apply (proj1 IH Heq c).
    + assert (String.length (escapeChar d +:+ escapeHtml text)
              = String.length (String d text)) as Hlen by by rewrite Heq.
      rewrite length_append in Hlen. simpl in Hlen.
      pose proof (length_escapeHtml text).
      destruct Hentity as [[_ He]|[[_ He]|[[_ He]|[[_ He]|[_ He]]]]];
        rewrite He in Hlen; simpl in Hlen; lia.
  - intros Hnone.
    destruct (escapeChar_spec d) as [[Hd Hplain]|Hentity].
    + rewrite Hplain, append_cons. f_equal. apply IH.
      intros c Hc Hocc. apply (Hnone c Hc). by right.
    + exfalso. apply (Hnone d); [|by left].
      rewrite escapable_cases.
      destruct Hentity as [[-> _]|[[-> _]|[[-> _]|[[-> _]|[-> _]]]]]; auto 10.
Qed.

Lemma escapeHtml_unchanged_iff_witness :
  escapeHtml "Ann-Marie" = "Ann-Marie".
Proof.
  apply (proj2 (escapeHtml_unchanged_iff "Ann-Marie")).
  intros c Hc. apply escapable_cases in Hc.
  destruct Hc as [->|[->|[->|[->| ->]]]]; compute_done.
Defined.

(** Two texts with the same escaped form are the same text: escaping
    loses nothing. *)
Theorem escapeHtml_injective (s t : string) :
  escapeHtml s = escapeHtml t → s = t.
Proof.
  revert t. induction s as [|c s IH]; intros [|d t]; simpl escapeHtml.
  - done.
  - intros Heq. symmetry in Heq.
    by destruct (escapeHtml_nonempty (String d t)).
  - intros Heq. by destruct (escapeHtml_nonempty (String c s)).
  - intros Heq.
    assert (c = d ∧ escapeHtml s = escapeHtml t) as [-> Hrest];
      [|by rewrite (IH t Hrest)].
    destruct (escapeChar_spec c)
      as [[Hc Ec]|[[-> Ec]|[[-> Ec]|[[-> Ec]|[[-> Ec]|[-> Ec]]]]]];
    destruct (escapeChar_spec d)
      as [[Hd Ed]|[[-> Ed]|[[-> Ed]|[[-> Ed]|[[-> Ed]|[-> Ed]]]]]];
    rewrite ?Ec, ?Ed in Heq; try (by injection Heq);
    try (injection Heq as Hhead Htail; subst;
         first [ by destruct Hc; apply list_elem_of_here
               | by destruct Hd; apply list_elem_of_here ]).
Qed.

Lemma escapeHtml_injective_witness :
  "Tom & Jerry" ≠ "Tom &amp; Jerry"
  ∧ escapeHtml "Tom & Jerry" ≠ escapeHtml "Tom &amp; Jerry".
Proof.
  split; [done|].
  intros Heq. by apply escapeHtml_injective in Heq.
Defined.

(** ** Clearing the data *)

(** After [clearLocalStorage] was confirmed the roster is empty and
    nothing is saved.  What a later load shows depends on the unload
    listener: if it ran, the empty roster was saved and comes back; if it
    did not run, there is no item and the declared sample guest is back.
    A declined [confirm] changes nothing. *)
Theorem clearLocalStorage_then_reopen (w : World) :
  let cleared := exec (LocalSession.clearLocalStorage true) w in
  guests cleared = []
  ∧ storage cleared = None
  ∧ confirmedCount cleared = 0
  ∧ guests (LocalSession.reopen (exec LocalSession.onBeforeUnload cleared)) = []
  ∧ guests (LocalSession.reopen cleared) = [Guest.mk 1 "Sample Guest" "pending"]
  ∧ exec (LocalSession.clearLocalStorage false) w = w.
Proof. by destruct w. Qed.

(** ** Statistics *)

Lemma countStatus_cons (s : string) (g : Guest.t) (gs : list Guest.t) :
  countStatus s (g :: gs)
  = (if decide (Guest.status g = s) then 1 else 0) + countStatus s gs.
Proof.
  unfold countStatus. rewrite filter_cons. by case_decide.
Qed.

(** The three counts of [getGuestStats] never add up to more than the
    total, and they add up to the total exactly when every status on the
    roster is one of pending, confirmed and declined: a guest with any
    other status is counted in the total only. *)
Theorem stats_add_up (w : World) :
  let stats := LocalVariant.getGuestStats w in
  LocalVariant.confirmed stats + LocalVariant.pending stats
    + LocalVariant.declined stats ≤ LocalVariant.total stats
  ∧ (LocalVariant.confirmed stats + LocalVariant.pending stats
       + LocalVariant.declined stats = LocalVariant.total stats
     ↔ Forall (λ g, Guest.status g ∈ statuses) (guests w)).
Proof.
  cbn. induction (guests w) as [|g gs [IHle IHeq]]; [by split|].
  rewrite !countStatus_cons, Forall_cons. cbn [length].
  assert (Guest.status g ∈ statuses
          ↔ Guest.status g = "pending" ∨ Guest.status g = "confirmed"
            ∨ Guest.status g = "declined") as Hin.
  { unfold statuses. rewrite !elem_of_cons, elem_of_nil. tauto. }
  rewrite Hin. repeat case_decide; split; try split; try lia; try congruence;
    try (intros; split; [tauto|apply IHeq; lia]);
    try (intros [? ?%IHeq]; lia); try (intros [[|[|]] _]; congruence).
Qed.

(** ** The duplicate guard and escaped names *)

Lemma lowerChar_markup (c x : ascii) :
  c ∈ markup → (c = Js.lowerChar x ↔ c = x).
Proof.
  intros [->|[->|[->| ->]]]%markup_cases;
    destruct x as [[] [] [] [] [] [] [] []]; compute_done.
Qed.

Lemma occurs_toLowerCase (c : ascii) (s : string) :
  c ∈ markup → (occurs c (Js.toLowerCase s) ↔ occurs c s).
Proof.
  intros Hc. induction s as [|x s IH]; [done|].
  simpl. by rewrite IH, (lowerChar_markup c x Hc).
Qed.

(** The stored names of a roster built by adds, status changes and
    removals from [w] are escaped forms when those of [w] are. *)
Lemma run_keeps_names_escaped (ops : list LocalVariant.Op) (w : World) :
  Forall (λ g, escapedValidName (Guest.name g)) (guests w) →
  Forall (λ g, escapedValidName (Guest.name g)) (guests (LocalVariant.run ops w)).
Proof.
  apply (run_invariant
           (λ w, Forall (λ g, escapedValidName (Guest.name g)) (guests w)) ops).
  intros w' op _ Hw. pose proof (step_roster w' op) as Hstep.
  destruct op as [input now|id newStatus|id].
  - destruct Hstep as [->|(Hname & Hlen & ->)]; [done|].
    apply Forall_app. split; [done|]. apply Forall_singleton.
    exists (Js.trim input). split_and!; try done.
    + apply trim_idempotent.
    + destruct (Js.trim input); [done|simpl; lia].
  - destruct Hstep as [->|(i & g & Hi & ->)]; [done|].
    apply Forall_insert; [done|].
    by apply (Forall_lookup_1 _ _ _ _ Hw Hi).
  - rewrite Hstep. by apply Forall_filter_keeps.
Qed.

Lemma initial_names_escaped :
  Forall (λ g, escapedValidName (Guest.name g)) (guests LocalVariant.initial).
Proof.
  apply Forall_singleton. exists "Sample Guest".
  split_and!; (reflexivity || (simpl; lia)).
Qed.

(** On a roster built by adds, status changes and removals, the duplicate
    guard never stops a name that holds a less-than, greater-than, double
    quote or apostrophe: the guard compares the typed name with the stored,
    escaped names, and no escaped name holds such a character.  A valid
    name of this kind is appended every time it is added, also when a guest
    of that very name is on the roster. *)
Theorem markup_name_is_never_a_duplicate (ops : list LocalVariant.Op)
    (input : string) (now : Z) (c : ascii) :
  let w := typing input (LocalVariant.run ops LocalVariant.initial) in
  Js.trim input ≠ "" →
  String.length (Js.trim input) ≤ 50 →
  c ∈ markup →
  occurs c (Js.trim input) →
  guests (exec (LocalVariant.addGuest now) w)
  = guests w ++ [Guest.mk now (escapeHtml (Js.trim input)) "pending"].
Proof.
  intros w Hname Hlen Hc Hocc. unfold exec.
  rewrite addGuest_new; [done..|].
  intros (g & Hg & Hsame)%Exists_exists.
  pose proof (run_keeps_names_escaped ops _ initial_names_escaped) as Hesc.
  destruct (proj1 (Forall_forall _ _) Hesc g Hg) as (raw & _ & _ & Hstored).
  apply (escapeHtml_no_markup raw c Hc). rewrite <- Hstored.
  apply (occurs_toLowerCase c _ Hc). unfold sameNameIgnoringCase in Hsame.
  rewrite Hsame. by apply occurs_toLowerCase.
Qed.

Lemma markup_name_is_never_a_duplicate_witness :
  Guest.name
    <$> guests (LocalVariant.run
                  [LocalVariant.Add "O'Brien" noon;
                   LocalVariant.Add "O'Brien" (noon + 1)]
                  LocalVariant.initial)
  = ["Sample Guest"; "O&#039;Brien"; "O&#039;Brien"].
Proof.
  change (Guest.name
            <$> guests (exec (LocalVariant.addGuest (noon + 1))
                          (typing "O'Brien"
                             (LocalVariant.run [LocalVariant.Add "O'Brien" noon]
                                LocalVariant.initial)))
          = ["Sample Guest"; "O&#039;Brien"; "O&#039;Brien"]).
  rewrite (markup_name_is_never_a_duplicate
             [LocalVariant.Add "O'Brien" noon] "O'Brien" (noon + 1) "'"%char);
    [reflexivity|compute_done..].
Defined.

(** A name that escaping leaves alone is guarded: once it was added, adding
    it again in any spelling of upper and lower case that is itself at
    most 50 characters long is refused with the duplicate warning, and the
    roster stays as it is. *)
Theorem plain_name_is_guarded (w : World) (now now' : Z) (again : string) :
  let name := enteredName w in
  let added := exec (LocalVariant.addGuest now) w in
  name ≠ "" →
  String.length name ≤ 50 →
  escapeHtml name = name →
  ¬ Exists (sameNameIgnoringCase name) (guests w) →
  String.length (Js.trim again) ≤ 50 →
  Js.toLowerCase (Js.trim again) = Js.toLowerCase name →
  failsWith DuplicateError (typing again added)
    (exec (LocalVariant.addGuest now') (typing again added)).
Proof.
  intros name added Hname Hlen Hplain Hnew Hagain Hsame.
  assert (guests added
          = guests w ++ [Guest.mk now name "pending"]) as Hadded.
  { unfold added, exec. rewrite addGuest_new by done. cbn.
    fold name. by rewrite Hplain. }
  assert (enteredName (typing again added) = Js.trim again) as Hentered
    by reflexivity.
  unfold failsWith, DuplicateError, exec.
  rewrite addGuest_duplicate; rewrite ?Hentered; [cbn; eauto| |done|].
  - intros Hblank. rewrite Hblank in Hsame. by destruct name.
  - change (guests (typing again added)) with (guests added).
    rewrite Hadded. apply Exists_app. right. apply Exists_cons_hd.
    by unfold sameNameIgnoringCase.
Qed.

Lemma plain_name_is_guarded_witness :
  failsWith DuplicateError
    (typing "ANN" (exec (LocalVariant.addGuest noon)
                     (typing "Ann" LocalVariant.initial)))
    (exec (LocalVariant.addGuest (noon + 1))
       (typing "ANN" (exec (LocalVariant.addGuest noon)
                        (typing "Ann" LocalVariant.initial)))).
Proof.
  apply (plain_name_is_guarded (typing "Ann" LocalVariant.initial)
           noon (noon + 1) "ANN"); compute_done.
Defined.

(** ** More on the roster of the local-storage variant *)

(** [createGuestElement] writes the stored name into the markup of the row
    as it is.  On a roster built by adds, status changes and removals no
    stored name holds a less-than, greater-than, double quote or
    apostrophe. *)
Theorem stored_names_hold_no_markup (ops : list LocalVariant.Op)
    (g : Guest.t) (c : ascii) :
  g ∈ guests (LocalVariant.run ops LocalVariant.initial) →
  c ∈ markup →
  ¬ occurs c (Guest.name g).
Proof.
  intros Hg Hc.
  pose proof (run_keeps_names_escaped ops _ initial_names_escaped) as Hesc.
  destruct (proj1 (Forall_forall _ _) Hesc g Hg) as (raw & _ & _ & ->).
  by apply escapeHtml_no_markup.
Qed.

Lemma stored_names_hold_no_markup_witness :
  Guest.name
    <$> guests (LocalVariant.run
                  [LocalVariant.Add "<img src=x onerror=alert(1)>" noon]
                  LocalVariant.initial)
  = ["Sample Guest"; "&lt;img src=x onerror=alert(1)&gt;"]
  ∧ ¬ occurs "<"%char "&lt;img src=x onerror=alert(1)&gt;".
Proof.
  split; [reflexivity|].
  apply (stored_names_hold_no_markup
           [LocalVariant.Add "<img src=x onerror=alert(1)>" noon]
           (Guest.mk noon "&lt;img src=x onerror=alert(1)&gt;" "pending")
           "<"%char); compute_done.
Defined.

(** Adding a guest and then removing the guest under the id it got gives
    back the roster as it was, provided no guest had that id before. *)
Theorem remove_undoes_add (w : World) (now : Z) :
  enteredName w ≠ "" →
  String.length (enteredName w) ≤ 50 →
  ¬ Exists (sameNameIgnoringCase (enteredName w)) (guests w) →
  now ∉ ids w →
  guests (exec (LocalVariant.removeGuest now)
            (exec (LocalVariant.addGuest now) w))
  = guests w.
Proof.
  intros Hname Hlen Hnew Hfresh. rewrite removeGuest_roster.
  unfold exec at 1. rewrite addGuest_new by done. cbn.
  rewrite filter_app, filter_cons_False by (cbn; by intros Hne).
  rewrite filter_nil, app_nil_r.
  apply filter_keeps_all, Forall_forall. intros g Hg Hid.
  apply Hfresh. unfold ids. rewrite <- Hid. by apply list_elem_of_fmap_2.
Qed.

Lemma remove_undoes_add_witness :
  guests (exec (LocalVariant.removeGuest (noon + 5))
            (exec (LocalVariant.addGuest (noon + 5)) (typing "Cleo" rsvps)))
  = guests (typing "Cleo" rsvps).
Proof.
  apply (remove_undoes_add (typing "Cleo" rsvps) (noon + 5)); compute_done.
Defined.

(** Of two status changes for the same id only the second counts: the
    roster is the one the second change alone would give. *)
Theorem second_status_change_wins (w : World) (id : Z) (first second : string) :
  guests (exec (LocalVariant.updateGuestStatus id second)
            (exec (LocalVariant.updateGuestStatus id first) w))
  = guests (exec (LocalVariant.updateGuestStatus id second) w).
Proof.
  unfold exec. destruct (decide (id ∈ ids w)) as [Hin|Hout].
  - destruct (find_present w id Hin) as (i & g & Hfind).
    rewrite (updateGuestStatus_found w id first i g Hfind).
    rewrite (updateGuestStatus_found w id second i g Hfind).
    pose proof Hfind as (Hi & Hid & Hfirst)%list_find_Some.
    assert (i < length (guests w)) as Hlt by by eapply lookup_lt_Some.
    rewrite (updateGuestStatus_found _ id second i (Guest.set_status first g)).
    + cbn. by rewrite list_insert_insert_eq.
    + cbn. apply list_find_Some. split_and!.
      * by apply list_lookup_insert_eq.
      * done.
      * intros j g' Hj Hlt'. rewrite list_lookup_insert_ne in Hj by lia.
        by eapply Hfirst.
  - rewrite (updateGuestStatus_absent w id first Hout). cbn [snd].
    by rewrite (updateGuestStatus_absent w id second Hout).
Qed.

(** ** What the remote variant keeps in memory *)

(** A call leaves the roster alone, or installs the list of its reload,
    which reported success. *)
Lemma perform_roster (c : RemoteVariant.Call) (w : World) :
  let w' := exec (RemoteVariant.perform c) w in
  guests w' = guests w
  ∨ ∃ ok data,
      RemoteSession.reloadOf c = RemoteVariant.Responds ok data
      ∧ RemoteVariant.success data = true
      ∧ guests w' = RemoteVariant.listed data.
Proof.
  destruct c as [post get|id newStatus put get|id confirmed del get|get];
    cbn [RemoteVariant.perform RemoteSession.reloadOf]; cbn zeta;
    unfold RemoteVariant.addGuest, RemoteVariant.updateGuestStatus,
      RemoteVariant.removeGuest, RemoteVariant.loadGuests; run_handler;
    repeat case_decide; try (by left);
    try (destruct confirmed; [|by left]);
    try (destruct post as [|[] reply]; try by left);
    try (destruct put as [|[] reply]; try by left);
    try (destruct del as [|[] reply]; try by left);
    (destruct get as [|ok data]; [by left|]);
    (destruct (RemoteVariant.success data) eqn:Hs; [right|by left]);
    by exists ok, data.
Qed.

Lemma remote_run_roster (events : list RemoteSession.Event) (w : World) :
  guests (RemoteSession.run events w) = guests w
  ∨ ∃ c ok data,
      RemoteSession.Called c ∈ events
      ∧ RemoteSession.reloadOf c = RemoteVariant.Responds ok data
      ∧ RemoteVariant.success data = true
      ∧ guests (RemoteSession.run events w) = RemoteVariant.listed data.
Proof.
  revert w. induction events as [|e events IH]; intros w; [by left|].
  change (RemoteSession.run (e :: events) w)
    with (RemoteSession.run events (RemoteSession.step w e)).
  destruct (IH (RemoteSession.step w e))
    as [Hsame|(c & ok & data & Hin & Hget & Hs & Hlist)].
  - rewrite Hsame. destruct e as [input|c]; [by left|].
    destruct (perform_roster c w) as [Hg|(ok & data & Hget & Hs & Hlist)];
      [by left|].
    right. exists c, ok, data. split_and!; try done. apply list_elem_of_here.
  - right. exists c, ok, data. split_and!; try done.
    by apply list_elem_of_further.
Qed.

(** In the remote variant the roster in memory is never built locally:
    after any session it is the empty roster the script declares, or
    exactly the list that the reload of one of the calls answered with a
    report of success. *)
Theorem remote_roster_comes_from_server (events : list RemoteSession.Event) :
  let w := RemoteSession.run events RemoteVariant.initial in
  guests w = []
  ∨ ∃ c ok data,
      RemoteSession.Called c ∈ events
      ∧ RemoteSession.reloadOf c = RemoteVariant.Responds ok data
      ∧ RemoteVariant.success data = true
      ∧ guests w = RemoteVariant.listed data.
Proof. apply (remote_run_roster events RemoteVariant.initial). Qed.

(** ** Navigation *)

Section NavigationFacts.
Import Navigation.

Lemma hideSections_lookup (els : list Element) (j : nat) (e : Element) :
  hideSections els !! j = Some e →
  ∃ e0, els !! j = Some e0
        ∧ elementId e = elementId e0
        ∧ isSection e = isSection e0
        ∧ (isSection e = true → hidden e = true).
Proof.
  unfold hideSections. rewrite list_lookup_fmap.
  destruct (els !! j) as [e0|]; [|done]. intros [= <-]. exists e0.
  by destruct e0 as [i [] h].
Qed.

Lemma find_after_hideSections (els : list Element) (section : string) :
  fst <$> list_find (λ e, elementId e = section) (hideSections els)
  = fst <$> list_find (λ e, elementId e = section) els.
Proof.
  unfold hideSections. rewrite list_find_fmap.
  rewrite (list_find_ext _ (λ e, elementId e = section));
    [by destruct (list_find _ els) as [[]|]|].
  intros [i [] h]; by cbn.
Qed.

Lemma hideSections_shows_nothing (els : list Element) :
  filter (λ e, isSection e = true ∧ hidden e = false) (hideSections els) = [].
Proof.
  unfold hideSections. induction els as [|[x s h] els IH]; [done|].
  rewrite fmap_cons, filter_cons_False; [done|].
  destruct s; cbn; by intros [].
Qed.

(** [appState.currentSection] is one of the three sections after any
    visits, whatever names [navigateTo] is called with. *)
Theorem currentSection_stays_valid (sections : list string) (site : Site) :
  currentSection site ∈ validSections →
  currentSection (visit sections site) ∈ validSections.
Proof.
  revert site. induction sections as [|section sections IH]; intros site Hsite;
    [done|].
  apply IH. unfold navigateTo. case_decide; [|done].
  by destruct (list_find _ _) as [[i target]|].
Qed.

Lemma currentSection_stays_valid_witness :
  currentSection (visit ["rsvp"; "photos"; "location"; "<script>"] samplePage)
  ∈ validSections.
Proof. apply currentSection_stays_valid. compute_done. Defined.

(** After [navigateTo] with one of the three sections whose element is on
    the page, that section is the current one, its element (the first
    with the id) is not hidden, and every other element of class
    [section] is hidden. *)
Theorem navigateTo_shows_only_the_target (section : string) (site : Site)
    (i : nat) (target : Element) :
  section ∈ validSections →
  list_find (λ e, elementId e = section) (elements site) = Some (i, target) →
  let site' := navigateTo section site in
  currentSection site' = section
  ∧ elements site'
    !! i = Some (mkElement section (isSection target) false)
  ∧ (∀ j e, j ≠ i → elements site' !! j = Some e →
            isSection e = true → hidden e = true)
  ∧ (elementId <$> elements site') = (elementId <$> elements site)
  ∧ navBtns site' = updateNavigation section (navBtns site).
Proof.
  intros Hvalid Hfind site'. subst site'. unfold navigateTo.
  rewrite decide_True by done. cbn zeta.
  pose proof (find_after_hideSections (elements site) section) as Hidx.
  rewrite Hfind in Hidx.
  destruct (list_find _ (hideSections (elements site))) as [[i' target']|] eqn:Hf;
    [|done].
  injection Hidx as ->.
  apply list_find_Some in Hf as (Hi' & Hid' & _).
  apply list_find_Some in Hfind as (Hi & Hid & _).
  destruct (hideSections_lookup _ _ _ Hi') as (e0 & He0 & Hsame & Hsec & _).
  assert (e0 = target) as -> by congruence.
  cbn. split_and!; try done.
  - rewrite list_lookup_insert_eq by by eapply lookup_lt_Some.
    by rewrite Hid', Hsec.
  - intros j e Hj. rewrite list_lookup_insert_ne by done.
    intros (e1 & _ & _ & _ & Hhidden)%hideSections_lookup. done.
  - rewrite list_fmap_insert. cbn. rewrite list_insert_id.
    + unfold hideSections. rewrite <- list_fmap_compose.
      apply list_fmap_ext. intros k [x [] h] _; done.
    + by rewrite list_lookup_fmap, Hi'.
Qed.

Lemma navigateTo_shows_only_the_target_witness :
  shown (navigateTo "location" samplePage)
  = [mkElement "location" true false]
  ∧ elements (navigateTo "location" samplePage) !! 2
    = Some (mkElement "location" true false).
Proof.
  split; [reflexivity|].
  apply (navigateTo_shows_only_the_target "location" samplePage 2
           (mkElement "location" true true)); [compute_done|reflexivity].
Defined.

(** Edge cases of [navigateTo].  A name that is none of the three sections
    changes nothing.  One of the three sections whose element is missing
    hides every section and leaves the current section and the buttons as
    they were: nothing shows. *)
Theorem navigateTo_unknown_or_missing (section : string) (site : Site) :
  (section ∉ validSections → navigateTo section site = site)
  ∧ (section ∈ validSections →
     (∀ e, e ∈ elements site → elementId e ≠ section) →
     shown (navigateTo section site) = []
     ∧ currentSection (navigateTo section site) = currentSection site
     ∧ navBtns (navigateTo section site) = navBtns site).
Proof.
  unfold navigateTo. split.
  - intros Hinvalid. by rewrite decide_False.
  - intros Hvalid Hmissing. rewrite decide_True by done. cbn zeta.
    pose proof (find_after_hideSections (elements site) section) as Hidx.
    rewrite (proj2 (list_find_None _ (elements site))) in Hidx
      by (by apply Forall_forall).
    destruct (list_find _ (hideSections (elements site))) as [[]|]; [done|].
    split_and!; try done. apply hideSections_shows_nothing.
Qed.

(** [updateNavigation] marks the button at the position of the section in
    the list of section names and no other button: for one of the three
    sections, a button is active exactly when it sits at that position. *)
Theorem updateNavigation_marks_one_button (activeSection : string)
    (btns : list NavBtn) :
  activeSection ∈ validSections →
  ∃ k, sectionNames !! k = Some activeSection
       ∧ length (updateNavigation activeSection btns) = length btns
       ∧ ∀ j btn, updateNavigation activeSection btns !! j = Some btn →
                  (active btn = true ↔ j = k).
Proof.
  intros [k Hk]%list_elem_of_lookup. exists k. split_and!.
  - done.
  - apply length_imap.
  - intros j btn. unfold updateNavigation. rewrite list_lookup_imap.
    destruct (btns !! j) as [b|]; [|done]. cbn. intros [= <-].
    case_decide as Hj; cbn.
    + split; [intros _|done].
      assert (NoDup sectionNames) as Hnodup by compute_done.
      by eapply NoDup_lookup.
    + split; [done|]. intros ->. by destruct Hj.
Qed.

Lemma updateNavigation_marks_one_button_witness :
  active <$> updateNavigation "location" (navBtns samplePage)
  = [false; true; false]
  ∧ ∃ k, sectionNames !! k = Some "location"
         ∧ ∀ j btn,
             updateNavigation "location" (navBtns samplePage) !! j = Some btn →
             (active btn = true ↔ j = k).
Proof.
  split; [reflexivity|].
  destruct (updateNavigation_marks_one_button "location" (navBtns samplePage))
    as (k & Hk & _ & Hactive); [compute_done|].
  by exists k.
Defined.

End NavigationFacts.

(** ** The photo banner *)

Section PhotoFacts.
Import PhotoBanner.

(** What holds of the photo side after every use. *)
Lemma photo_invariant (uses : list Use) (p : Photo) :
  Forall loadsData uses →
  let Inv := λ p : Photo,
    (bannerHidden p = false ↔ photoImage p ≠ None)
    ∧ (bannerHidden p = false → bannerSrc p = photoImage p)
    ∧ (∀ url, photoImage p = Some url → url ≠ "")
    ∧ (saved p = None ∧ photoImage p = None ∨ saved p = Some (photoImage p)) in
  Inv p → Inv (run uses p).
Proof.
  intros Huses Inv. revert p.
  induction Huses as [|first rest Hfirst Hrest IH]; intros p Hp; [done|].
  apply IH. clear IH. destruct Hp as (Hshown & Hsrc & Hurl & Hsaved).
  destruct first as [[|result|]|[]| |[]|]; cbn [step]; try done.
  - unfold handlePhotoUpload, displayPhoto. cbn in Hfirst |- *.
    rewrite bool_decide_true by done. cbn.
    split_and!; [done..|by intros url [= <-]|by right].
  - cbn. split_and!; [done..|by right].
  - cbn. split_and!; [done..|by right].
  - cbn. split_and!; [done..|by left].
  - unfold reopen, loadFromLocalStorage, freshPage. cbn.
    destruct Hsaved as [[Hs _]|Hs]; rewrite Hs; [by cbn; split_and!; try left|].
    destruct (photoImage p) as [url|] eqn:Hphoto;
      [|by cbn; split_and!; try right].
    unfold orElse, displayPhoto. cbn.
    rewrite !bool_decide_true by by apply Hurl. cbn.
    rewrite !bool_decide_true by by apply Hurl. cbn.
    split_and!; [done..|by intros ? [= <-]; apply Hurl|by right].
Qed.

(** After any uploads, removals, saves, clearings and reloads, starting
    from a fresh page with nothing saved, the banner shows exactly when a
    photo is set, and then it shows that photo. *)
Theorem banner_shows_the_current_photo (uses : list Use) :
  Forall loadsData uses →
  let p := run uses (freshPage None) in
  (bannerHidden p = false ↔ photoImage p ≠ None)
  ∧ (bannerHidden p = false → bannerSrc p = photoImage p).
Proof.
  intros Huses p.
  destruct (photo_invariant uses (freshPage None) Huses) as (H1 & H2 & _);
    [|done].
  cbn. split_and!; try done. by left.
Qed.

Lemma banner_shows_the_current_photo_witness :
  bannerSrc (run [Upload (Loaded "data:image/png;base64,AAAA");
                  RemovePhoto false; Reopen]
               (freshPage None))
  = Some "data:image/png;base64,AAAA"
  ∧ (bannerHidden
       (run [Upload (Loaded "data:image/png;base64,AAAA");
             RemovePhoto false; Reopen]
          (freshPage None)) = false
     ↔ photoImage
         (run [Upload (Loaded "data:image/png;base64,AAAA");
               RemovePhoto false; Reopen]
            (freshPage None)) ≠ None).
Proof.
  split; [reflexivity|].
  apply (banner_shows_the_current_photo
           [Upload (Loaded "data:image/png;base64,AAAA");
            RemovePhoto false; Reopen]).
  compute_done.
Defined.

End PhotoFacts.
